(** * HikariWave desktop client: lyrics synchroniser and task poller

    A shallow embedding of [desktop/src/utils/lyrics.ts] and of the
    [useTaskPolling] hook of [desktop/src/hooks], with the properties the
    specification states about them.

    - JavaScript strings are sequences of UTF-16 code units ([list N]).
    - JavaScript numbers are IEEE-754 binary64 values: the kernel's
      primitive [float].
    - Regular expressions are kept as syntax trees and run by a
      backtracking matcher written after the ECMAScript matcher
      (continuations, greedy quantifiers, ordered alternatives).
    - The hook is a transition system over the event loop: timers that
      are alive, status requests in flight, and the shared store. *)

From Stdlib Require Import ZArith NArith List Ascii String Floats Lia Bool.
From stdpp Require Import gmap.
Import ListNotations.

Set Default Goal Selector "!".

(* ===================================================================== *)
(** ** JavaScript strings and numbers *)
(* ===================================================================== *)

Module JS.

(** A UTF-16 code unit. *)
Abbreviation char := N.
Abbreviation jsstring := (list char).

(** An ASCII literal as a JavaScript string. *)
Definition js (s : string) : jsstring :=
  List.map N_of_ascii (list_ascii_of_string s).

(** An ASCII character as a code unit. *)
Definition ch (a : ascii) : char := N_of_ascii a.

Definition LF : char := 10%N.

(** ECMAScript LineTerminator: LF, CR, LS, PS. *)
Definition is_line_terminator (c : char) : bool :=
  (c =? 10)%N || (c =? 13)%N || (c =? 0x2028)%N || (c =? 0x2029)%N.

(** ECMAScript WhiteSpace: TAB, VT, FF, SP, NBSP, ZWNBSP and the
    Unicode category Zs. *)
Definition is_white_space (c : char) : bool :=
  (c =? 9)%N || (c =? 11)%N || (c =? 12)%N || (c =? 32)%N
  || (c =? 0xA0)%N || (c =? 0xFEFF)%N || (c =? 0x1680)%N
  || ((0x2000 <=? c)%N && (c <=? 0x200A)%N)
  || (c =? 0x202F)%N || (c =? 0x205F)%N || (c =? 0x3000)%N.

(** What [String.prototype.trim] strips and what [\s] matches. *)
Definition is_space (c : char) : bool :=
  is_white_space c || is_line_terminator c.

(** [\d] *)
Definition is_digit (c : char) : bool := (48 <=? c)%N && (c <=? 57)%N.

(** [.] without the [s] flag *)
Definition is_dot (c : char) : bool := negb (is_line_terminator c).

Fixpoint trimStart (s : jsstring) : jsstring :=
  match s with
  | c :: s' => if is_space c then trimStart s' else s
  | [] => []
  end.

Definition trimEnd (s : jsstring) : jsstring := rev (trimStart (rev s)).

(** [s.trim()] *)
Definition trim (s : jsstring) : jsstring := trimEnd (trimStart s).

(** [s.split(sep)] for a one-unit separator: never an empty array. *)
Fixpoint split (sep : char) (s : jsstring) : list jsstring :=
  match s with
  | [] => [[]]
  | c :: s' =>
      if (c =? sep)%N then [] :: split sep s'
      else match split sep s' with
           | l :: ls => (c :: l) :: ls
           | [] => [[c]]
           end
  end.

(** [a.join(sep)] *)
Fixpoint join (sep : char) (a : list jsstring) : jsstring :=
  match a with
  | [] => []
  | [l] => l
  | l :: ls => l ++ sep :: join sep ls
  end.

(** Truthiness of a string: non-empty. *)
Definition truthy (s : jsstring) : bool :=
  match s with [] => false | _ :: _ => true end.

(** A JavaScript number. *)
Abbreviation number := float.

Definition of_Z (z : Z) : number := PrimFloat.of_uint63 (Uint63.of_Z z).

Definition digit_value (c : char) : Z := (Z.of_N c - 48)%Z.

(** The integer a run of decimal digits denotes. *)
Definition decimal (s : jsstring) : Z :=
  fold_left (fun acc c => (10 * acc + digit_value c)%Z) s 0%Z.

(** [parseInt(s, 10)] on the captures it is called with here, which are
    runs of two or three decimal digits (the sign, white space and NaN
    paths of [parseInt] cannot be reached from them). *)
Definition parseInt10 (s : jsstring) : number := of_Z (decimal s).

End JS.

(* ===================================================================== *)
(** ** Regular expressions *)
(* ===================================================================== *)

Module Regex.
Import JS.

Inductive regex : Type :=
| Eps                          (* the empty pattern *)
| Bol                          (* ^ (no m flag: start of input) *)
| Eol                          (* $ (no m flag: end of input) *)
| Cls (p : char -> bool)       (* one unit of a class *)
| Seq (r1 r2 : regex)
| Alt (r1 r2 : regex)          (* r1|r2, r1 tried first *)
| Star (r : regex)             (* r*, greedy *)
| Grp (n : nat) (r : regex).   (* the n-th capturing group *)

(** Derived forms. *)
Definition Plus (r : regex) : regex := Seq r (Star r).          (* r+ *)
Definition Opt (r : regex) : regex := Alt r Eps.                 (* r? *)
Definition Rep2 (r : regex) : regex := Seq r r.                  (* r{2} *)
Definition Rep2to3 (r : regex) : regex := Seq r (Seq r (Opt r)). (* r{2,3} *)

Definition Chr (c : char) : regex := Cls (N.eqb c).

(** Canonicalize of the [i] flag (non-unicode mode): upper-casing, which
    never maps a unit outside ASCII to one inside.  The patterns below
    hold ASCII letters and caseless CJK units only, for which comparing
    after ASCII upper-casing is the whole of it. *)
Definition canonicalize (c : char) : char :=
  if ((97 <=? c)%N && (c <=? 122)%N)%bool then (c - 32)%N else c.

Definition ChrI (c : char) : regex :=
  Cls (fun x => (canonicalize x =? canonicalize c)%N).

Fixpoint seq_of (lit : char -> regex) (s : jsstring) : regex :=
  match s with
  | [] => Eps
  | [c] => lit c
  | c :: s' => Seq (lit c) (seq_of lit s')
  end.

(** A literal, under the [i] flag. *)
Definition LitI (s : jsstring) : regex := seq_of ChrI s.

Fixpoint seqs (rs : list regex) : regex :=
  match rs with
  | [] => Eps
  | [r] => r
  | r :: rs' => Seq r (seqs rs')
  end.

(** A class given by its members, under the [i] flag. *)
Definition ClsI (cs : list char) : regex :=
  Cls (fun x => existsb (fun c => (canonicalize x =? canonicalize c)%N) cs).

Fixpoint alts (rs : list regex) : regex :=
  match rs with
  | [] => Eps
  | [r] => r
  | r :: rs' => Alt r (alts rs')
  end.

(** Captures, most recent first. *)
Definition caps := list (nat * jsstring).

Fixpoint group (n : nat) (c : caps) : option jsstring :=
  match c with
  | [] => None
  | (k, s) :: c' => if Nat.eqb k n then Some s else group n c'
  end.

(** A continuation: input index, rest of the input, captures so far. *)
Definition cont := nat -> jsstring -> caps -> option caps.

(** RepeatMatcher with min = 0 and max = infinity: one more iteration of
    the body first, the continuation otherwise; an iteration that
    consumed nothing is rejected.  The counter is the length of the
    input still to read, which every accepted iteration lowers. *)
Fixpoint repeat (body : nat -> jsstring -> caps -> cont -> option caps)
    (k : cont) (n : nat) (i : nat) (s : jsstring) (c : caps) : option caps :=
  match n with
  | O => k i s c
  | S n' =>
      match body i s c
              (fun i' s' c' => if i <? i' then repeat body k n' i' s' c'
                               else None) with
      | Some res => Some res
      | None => k i s c
      end
  end.

Fixpoint run (r : regex) (i : nat) (s : jsstring) (c : caps) (k : cont)
    {struct r} : option caps :=
  match r with
  | Eps => k i s c
  | Bol => if i =? 0 then k i s c else None
  | Eol => match s with [] => k i s c | _ :: _ => None end
  | Cls p =>
      match s with
      | x :: s' => if p x then k (S i) s' c else None
      | [] => None
      end
  | Seq r1 r2 => run r1 i s c (fun i' s' c' => run r2 i' s' c' k)
  | Alt r1 r2 =>
      match run r1 i s c k with
      | Some res => Some res
      | None => run r2 i s c k
      end
  | Star r' => repeat (run r') k (length s) i s c
  | Grp n r' =>
      run r' i s c (fun i' s' c' => k i' s' ((n, firstn (i' - i) s) :: c'))
  end.

(** RegExpBuiltinExec without the g and y flags: the first start index,
    from 0 up, at which the pattern matches. *)
Fixpoint exec_from (r : regex) (i : nat) (s : jsstring) : option caps :=
  match run r i s [] (fun _ _ c => Some c) with
  | Some c => Some c
  | None =>
      match s with
      | [] => None
      | _ :: s' => exec_from r (S i) s'
      end
  end.

(** [s.match(r)] for a pattern without the g flag: the captures. *)
Definition exec (r : regex) (s : jsstring) : option caps := exec_from r 0 s.

(** [r.test(s)] *)
Definition test (r : regex) (s : jsstring) : bool :=
  match exec r s with Some _ => true | None => false end.

(** [m[n]] of a match array, for a group that took part in the match. *)
Definition capture (n : nat) (m : caps) : jsstring :=
  match group n m with Some s => s | None => [] end.

End Regex.

(* ===================================================================== *)
(** ** utils/lyrics.ts *)
(* ===================================================================== *)

Module Lyrics.
Import JS Regex.

Record LyricSection := {
  tag : jsstring;
  lines : list jsstring;
  index : nat
}.

(** [/^\[(.+)\]$/] *)
Definition TAG_PATTERN : regex :=
  seqs [Bol; Chr (ch "["); Grp 1 (Plus (Cls is_dot)); Chr (ch "]"); Eol].

(** The variables of the loop of [parseLyrics]. *)
Record ParseState := {
  sections : list LyricSection;
  currentTag : jsstring;
  currentLines : list jsstring;
  sectionIndex : nat
}.

(** The guarded [sections.push] with its [sectionIndex++]. *)
Definition flush (st : ParseState) : ParseState :=
  if (0 <? length (currentLines st)) || truthy (currentTag st) then
    {| sections := sections st ++
         [{| tag := currentTag st; lines := currentLines st;
             index := sectionIndex st |}];
       currentTag := currentTag st;
       currentLines := currentLines st;
       sectionIndex := S (sectionIndex st) |}
  else st.

(** One iteration of [for (const line of lyrics.split("\n"))]. *)
Definition parseLyrics_step (st : ParseState) (line : jsstring) : ParseState :=
  match exec TAG_PATTERN line with
  | Some tagMatch =>
      let st' := flush st in
      {| sections := sections st';
         currentTag := capture 1 tagMatch;
         currentLines := [];
         sectionIndex := sectionIndex st' |}
  | None =>
      {| sections := sections st;
         currentTag := currentTag st;
         currentLines := currentLines st ++ [line];
         sectionIndex := sectionIndex st |}
  end.

Definition parseLyrics_init : ParseState :=
  {| sections := []; currentTag := []; currentLines := []; sectionIndex := 0 |}.

Definition parseLyrics (lyrics : jsstring) : list LyricSection :=
  let st := fold_left parseLyrics_step (split LF lyrics) parseLyrics_init in
  if (0 <? length (currentLines st)) || truthy (currentTag st) then
    sections st ++
      [{| tag := currentTag st; lines := currentLines st;
          index := sectionIndex st |}]
  else sections st.

Record TimedLyricLine := {
  time : number;   (* seconds *)
  text : jsstring
}.

Definition ws : regex := Cls is_space.      (* \s *)
Definition digit : regex := Cls is_digit.   (* \d *)

(** [SECTION_PATTERN]: the structural markers that are not lyrics. *)
Definition SECTION_PATTERN : regex :=
  seqs
    [Bol; Opt (ChrI (ch "["));
     Grp 1
       (alts
          [LitI (js "Intro");
           seqs [LitI (js "Verse"); Star ws; Star digit];
           seqs [LitI (js "Pre"); Opt (ChrI (ch "-")); LitI (js "Chorus")];
           LitI (js "Chorus");
           LitI (js "Bridge");
           LitI (js "Outro");
           seqs [LitI (js "Instrumental"); Star ws; LitI (js "Break")];
           LitI [0x524D; 0x594F]%N;
           LitI [0x4E3B; 0x6B4C]%N;
           seqs [LitI [0x526F; 0x6B4C]%N; Opt (ChrI 0x524D%N)];
           LitI [0x9884; 0x526F; 0x6B4C]%N;
           LitI [0x5BFC; 0x6B4C]%N;
           LitI [0x6865; 0x6BB5]%N;
           LitI [0x8FC7; 0x6865]%N;
           LitI [0x8FC7; 0x6E21]%N;
           LitI [0x95F4; 0x594F]%N;
           LitI [0x5C3E; 0x58F0]%N;
           LitI [0x7ED3; 0x5C3E]%N;
           LitI [0x5C3E; 0x594F]%N;
           seqs [ChrI 0x7B2C%N; ClsI [0x4E00; 0x4E8C; 0x4E09]%N;
                 ChrI 0x6BB5%N]]);
     Star ws; Opt digit; Opt (ChrI (ch "]")); Star ws; Eol].

(** The pattern of a time-coded line,
    [/^\[(\d{2}):(\d{2})\.(\d{2,3})\](G)$/] where the body [G] of the
    fourth group is a starred dot. *)
Definition LRC_PATTERN : regex :=
  seqs [Bol; Chr (ch "[");
        Grp 1 (Rep2 digit); Chr (ch ":");
        Grp 2 (Rep2 digit); Chr (ch ".");
        Grp 3 (Rep2to3 digit); Chr (ch "]");
        Grp 4 (Star (Cls is_dot)); Eol].

(** The time stamp of a matched line, in seconds. *)
Definition lrc_time (m : caps) : number :=
  let minutes := parseInt10 (capture 1 m) in
  let seconds := parseInt10 (capture 2 m) in
  let ms := if length (capture 3 m) =? 2
            then (parseInt10 (capture 3 m) * 10)%float
            else parseInt10 (capture 3 m) in
  (minutes * 60 + seconds + ms / 1000)%float.

Definition parseLRC_step (lines : list TimedLyricLine) (raw : jsstring)
    : list TimedLyricLine :=
  match exec LRC_PATTERN raw with
  | Some m =>
      let time := lrc_time m in
      let text := trim (capture 4 m) in
      if truthy text && negb (test SECTION_PATTERN text)
      then lines ++ [{| time := time; text := text |}]
      else lines
  | None => lines
  end.

Definition parseLRC (lrc : jsstring) : list TimedLyricLine :=
  fold_left parseLRC_step (split LF lrc) [].

(** One iteration of the loop of [lrcToPlain] over [(result, prevTime)]. *)
Definition lrcToPlain_step (st : list jsstring * number) (raw : jsstring)
    : list jsstring * number :=
  let '(result, prevTime) := st in
  match exec LRC_PATTERN raw with
  | Some m =>
      let time := lrc_time m in
      let text := trim (capture 4 m) in
      if negb (truthy text) then st          (* continue *)
      else
        let result :=
          if (0 <? length result) && (6 <? time - prevTime)%float
          then result ++ [[]] else result in
        (result ++ [text], time)
  | None => (result ++ [raw], prevTime)
  end.

Definition lrcToPlain (lrc : jsstring) : jsstring :=
  join LF (fst (fold_left lrcToPlain_step (split LF lrc) ([], 0%float))).

(** The loop of [findActiveLRCIndex] from index [i] on, [active] being
    the last index that passed the test. *)
Fixpoint findActive_loop (lines : list TimedLyricLine) (currentTime : number)
    (i active : Z) : Z :=
  match lines with
  | [] => active
  | l :: rest =>
      if (time l <=? currentTime)%float
      then findActive_loop rest currentTime (i + 1)%Z i
      else active                          (* break *)
  end.

Definition findActiveLRCIndex (lines : list TimedLyricLine)
    (currentTime : number) : Z :=
  if length lines =? 0 then (-1)%Z
  else findActive_loop lines currentTime 0%Z (-1)%Z.

End Lyrics.



(* ===================================================================== *)
(** ** hooks: [useTaskPolling] *)
(* ===================================================================== *)

Module Polling.
Import JS.

Inductive GenerationStatus := pending | processing | completed | failed.

(** The fields of the response of [api.getTaskStatus] that the hook
    reads; an optional field is [None] when it is absent. *)
Module Generation.
Record Generation := {
  status : GenerationStatus;
  progress : option number;
  progress_message : option jsstring;
  lyrics : option jsstring;
  title : option jsstring;
  error_message : option jsstring
}.
End Generation.
Abbreviation Generation := Generation.Generation.

(** [generationStatus: GenerationStatus | "idle"] *)
Inductive StoreStatus := idle | st (s : GenerationStatus).

(** The fields of the create store that the hook writes. *)
Record CreateState := {
  lyrics : jsstring;
  title : jsstring;
  generationStatus : StoreStatus;
  progress : number;
  errorMessage : option jsstring;
  successMessage : option jsstring
}.

Definition initialState : CreateState :=
  {| lyrics := []; title := []; generationStatus := idle;
     progress := 0%float; errorMessage := None; successMessage := None |}.

Definition setLyrics (v : jsstring) (s : CreateState) : CreateState :=
  {| lyrics := v; title := title s; generationStatus := generationStatus s;
     progress := progress s; errorMessage := errorMessage s;
     successMessage := successMessage s |}.
Definition setTitle (v : jsstring) (s : CreateState) : CreateState :=
  {| lyrics := lyrics s; title := v; generationStatus := generationStatus s;
     progress := progress s; errorMessage := errorMessage s;
     successMessage := successMessage s |}.
Definition setGenerationStatus (v : StoreStatus) (s : CreateState)
    : CreateState :=
  {| lyrics := lyrics s; title := title s; generationStatus := v;
     progress := progress s; errorMessage := errorMessage s;
     successMessage := successMessage s |}.
Definition setProgress (v : number) (s : CreateState) : CreateState :=
  {| lyrics := lyrics s; title := title s;
     generationStatus := generationStatus s;
     progress := v; errorMessage := errorMessage s;
     successMessage := successMessage s |}.
Definition setErrorMessage (v : option jsstring) (s : CreateState)
    : CreateState :=
  {| lyrics := lyrics s; title := title s;
     generationStatus := generationStatus s;
     progress := progress s; errorMessage := v;
     successMessage := successMessage s |}.
Definition setSuccessMessage (v : option jsstring) (s : CreateState)
    : CreateState :=
  {| lyrics := lyrics s; title := title s;
     generationStatus := generationStatus s;
     progress := progress s; errorMessage := errorMessage s;
     successMessage := v |}.

(** A timer handle: an integer greater than zero, hence truthy. *)
Abbreviation handle := positive.

(** What the callback of an interval closes over, and its period. *)
Record Interval := { taskId : jsstring; period : Z }.

(** A status request in flight: the interval whose callback awaits it
    and the task it asks about. *)
Record Fetch := { interval : handle; task : jsstring }.

Inductive TimeoutCallback := scrollResultIntoView.

(** The hook and what the event loop holds for it. *)
Record World := {
  store : CreateState;
  progressMessage : jsstring;               (* useState("") *)
  pollIntervalRef : option handle;          (* useRef(null) *)
  intervals : gmap handle Interval;         (* the intervals alive *)
  fetches : gmap positive Fetch;            (* the requests in flight *)
  timeouts : list (TimeoutCallback * Z);    (* setTimeout(callback, ms) *)
  nextHandle : handle;
  nextFetch : positive
}.

Definition init : World :=
  {| store := initialState; progressMessage := []; pollIntervalRef := None;
     intervals := ∅; fetches := ∅; timeouts := [];
     nextHandle := 1%positive; nextFetch := 1%positive |}.

Definition withStore (f : CreateState -> CreateState) (w : World) : World :=
  {| store := f (store w); progressMessage := progressMessage w;
     pollIntervalRef := pollIntervalRef w; intervals := intervals w;
     fetches := fetches w; timeouts := timeouts w;
     nextHandle := nextHandle w; nextFetch := nextFetch w |}.

Definition setProgressMessage (v : jsstring) (w : World) : World :=
  {| store := store w; progressMessage := v;
     pollIntervalRef := pollIntervalRef w; intervals := intervals w;
     fetches := fetches w; timeouts := timeouts w;
     nextHandle := nextHandle w; nextFetch := nextFetch w |}.

Definition setPollIntervalRef (v : option handle) (w : World) : World :=
  {| store := store w; progressMessage := progressMessage w;
     pollIntervalRef := v; intervals := intervals w;
     fetches := fetches w; timeouts := timeouts w;
     nextHandle := nextHandle w; nextFetch := nextFetch w |}.

Definition clearInterval (h : handle) (w : World) : World :=
  {| store := store w; progressMessage := progressMessage w;
     pollIntervalRef := pollIntervalRef w;
     intervals := delete h (intervals w);
     fetches := fetches w; timeouts := timeouts w;
     nextHandle := nextHandle w; nextFetch := nextFetch w |}.

(** [setInterval(callback, ms)]: the handle is [nextHandle]. *)
Definition setInterval (iv : Interval) (w : World) : World :=
  {| store := store w; progressMessage := progressMessage w;
     pollIntervalRef := pollIntervalRef w;
     intervals := <[nextHandle w := iv]> (intervals w);
     fetches := fetches w; timeouts := timeouts w;
     nextHandle := Pos.succ (nextHandle w); nextFetch := nextFetch w |}.

Definition setTimeout (cb : TimeoutCallback) (ms : Z) (w : World) : World :=
  {| store := store w; progressMessage := progressMessage w;
     pollIntervalRef := pollIntervalRef w; intervals := intervals w;
     fetches := fetches w; timeouts := timeouts w ++ [(cb, ms)];
     nextHandle := nextHandle w; nextFetch := nextFetch w |}.

(** [api.getTaskStatus(taskId)] sent by the callback of interval [h]. *)
Definition sendRequest (h : handle) (id : jsstring) (w : World) : World :=
  {| store := store w; progressMessage := progressMessage w;
     pollIntervalRef := pollIntervalRef w; intervals := intervals w;
     fetches := <[nextFetch w := {| interval := h; task := id |}]> (fetches w);
     timeouts := timeouts w;
     nextHandle := nextHandle w; nextFetch := Pos.succ (nextFetch w) |}.

Definition settle (f : positive) (w : World) : World :=
  {| store := store w; progressMessage := progressMessage w;
     pollIntervalRef := pollIntervalRef w; intervals := intervals w;
     fetches := delete f (fetches w); timeouts := timeouts w;
     nextHandle := nextHandle w; nextFetch := nextFetch w |}.

(** [x ?? d] *)
Definition nullish {A} (x : option A) (d : A) : A :=
  match x with Some v => v | None => d end.

(** [x || d] on an optional string. *)
Definition or_else (x : option jsstring) (d : jsstring) : jsstring :=
  match x with
  | Some v => if truthy v then v else d
  | None => d
  end.

(** [if (x) k(x)] on an optional string. *)
Definition when_truthy (x : option jsstring) (k : jsstring -> World -> World)
    (w : World) : World :=
  match x with
  | Some v => if truthy v then k v w else w
  | None => w
  end.

Section Hook.
(** [t] of [useTranslation]: the message of a key. *)
Variable t : jsstring -> jsstring.

(** The callback of interval [h] after [await]: the request is
    fulfilled with [gen]. *)
Definition onFulfilled (h : handle) (gen : Generation) (w : World) : World :=
  let w := withStore (setProgress (nullish (Generation.progress gen) 0%float)) w in
  let w := setProgressMessage (or_else (Generation.progress_message gen) []) w in
  match Generation.status gen with
  | completed =>
      let w := when_truthy (Generation.lyrics gen)
                 (fun v => withStore (setLyrics v)) w in
      let w := when_truthy (Generation.title gen)
                 (fun v => withStore (setTitle v)) w in
      let w := withStore (setGenerationStatus (st completed)) w in
      let w := withStore
                 (setSuccessMessage
                    (Some (t (js "create.musicGeneratedSuccess")))) w in
      let w := setProgressMessage [] w in
      let w := clearInterval h w in
      let w := setPollIntervalRef None w in
      setTimeout scrollResultIntoView 200 w
  | failed =>
      let w := withStore (setGenerationStatus (st failed)) w in
      let w := withStore
                 (setErrorMessage
                    (Some (or_else (Generation.error_message gen)
                             (js "Generation failed.")))) w in
      let w := setProgressMessage [] w in
      let w := clearInterval h w in
      setPollIntervalRef None w
  | pending | processing => w
  end.

(** The [catch] block of the callback of interval [h]. *)
Definition onRejected (h : handle) (w : World) : World :=
  let w := clearInterval h w in
  let w := setPollIntervalRef None w in
  let w := withStore (setGenerationStatus (st failed)) w in
  let w := withStore
             (setErrorMessage (Some (t (js "create.lostConnection")))) w in
  setProgressMessage [] w.

Definition pollTask (id : jsstring) (w : World) : World :=
  let w := match pollIntervalRef w with
           | Some h => clearInterval h w
           | None => w
           end in
  let interval := nextHandle w in
  let w := setInterval {| taskId := id; period := 2000 |} w in
  setPollIntervalRef (Some interval) w.

Definition cancelPolling (w : World) : World :=
  let w := match pollIntervalRef w with
           | Some h => setPollIntervalRef None (clearInterval h w)
           | None => w
           end in
  setProgressMessage [] w.

(** The cleanup of the effect, at unmount. *)
Definition unmount (w : World) : World :=
  match pollIntervalRef w with
  | Some h => clearInterval h w
  | None => w
  end.

(** What happens to the hook. *)
Inductive Event :=
| PollTask (id : jsstring)                    (* pollTask(id) is called *)
| CancelPolling                               (* cancelPolling() is called *)
| Tick (h : handle)                           (* interval h fires *)
| Fulfilled (f : positive) (gen : Generation) (* request f is answered *)
| Rejected (f : positive)                     (* request f fails *)
| Unmount
| Elsewhere (s : CreateState) (m : jsstring). (* writes by other code *)

(** One turn of the event loop; [None] when the event cannot happen:
    an interval that is not alive does not fire, a request that is
    not in flight does not settle. *)
Definition step (w : World) (e : Event) : option World :=
  match e with
  | PollTask id => Some (pollTask id w)
  | CancelPolling => Some (cancelPolling w)
  | Tick h =>
      match intervals w !! h with
      | Some iv => Some (sendRequest h (taskId iv) w)
      | None => None
      end
  | Fulfilled f gen =>
      match fetches w !! f with
      | Some r => Some (onFulfilled (interval r) gen (settle f w))
      | None => None
      end
  | Rejected f =>
      match fetches w !! f with
      | Some r => Some (onRejected (interval r) (settle f w))
      | None => None
      end
  | Unmount => Some (unmount w)
  | Elsewhere s m => Some (setProgressMessage m (withStore (fun _ => s) w))
  end.

Fixpoint run (w : World) (es : list Event) : option World :=
  match es with
  | [] => Some w
  | e :: es' =>
      match step w e with
      | Some w' => run w' es'
      | None => None
      end
  end.

(** The interval [h] polls once for every answer of [gens], each tick
    answered before the next one. *)
Fixpoint observe (h : handle) (gens : list Generation) (w : World)
    : option World :=
  match gens with
  | [] => Some w
  | gen :: gens' =>
      match run w [Tick h; Fulfilled (nextFetch w) gen] with
      | Some w' => observe h gens' w'
      | None => None
      end
  end.

End Hook.

(** The shared generation-status state. *)
Definition shared (w : World)
    : StoreStatus * number * jsstring * jsstring * jsstring :=
  (generationStatus (store w), progress (store w), progressMessage w,
   lyrics (store w), title (store w)).

Definition terminal (s : GenerationStatus) : bool :=
  match s with completed | failed => true | pending | processing => false end.

(** Events that end no polling loop and start none. *)
Definition quiet (e : Event) : Prop :=
  match e with
  | Tick _ | Elsewhere _ _ => True
  | Fulfilled _ gen => terminal (Generation.status gen) = false
  | PollTask _ | CancelPolling | Rejected _ | Unmount => False
  end.

(** Every interval alive is the one the hook holds the handle of. *)
Definition tracked (w : World) : Prop :=
  forall h, is_Some (intervals w !! h) -> pollIntervalRef w = Some h.

Definition nonterminal (gen : Generation) : Prop :=
  terminal (Generation.status gen) = false.

(** The handles in use have been given out. *)
Definition bounded (w : World) : Prop :=
  (forall h iv, intervals w !! h = Some iv -> (h < nextHandle w)%positive)
  /\ (forall f r, fetches w !! f = Some r ->
        (interval r < nextHandle w)%positive).

(** A world the hook can be in. *)
Definition reachable (t : jsstring -> jsstring) (w : World) : Prop :=
  exists es, run t init es = Some w.

(** The interval [h] never fires again, whatever happens. *)
Definition stopped (t : jsstring -> jsstring) (h : handle) (w : World) : Prop :=
  forall es w', run t w es = Some w' -> step t w' (Tick h) = None.

(** Unfolds the setters and the projections of the two records. *)
Ltac wsimpl :=
  cbn [store progressMessage pollIntervalRef intervals fetches timeouts
       nextHandle nextFetch withStore setProgressMessage setPollIntervalRef
       clearInterval setInterval setTimeout sendRequest settle
       lyrics title generationStatus progress errorMessage successMessage
       setLyrics setTitle setGenerationStatus setProgress setErrorMessage
       setSuccessMessage interval task taskId period] in *.

(** Sample data: messages, answers of the server. *)
Module Sample.
Definition messages (key : jsstring) : jsstring := key.

Definition answer (s : GenerationStatus) : Generation :=
  {| Generation.status := s; Generation.progress := None;
     Generation.progress_message := None; Generation.lyrics := None;
     Generation.title := None; Generation.error_message := None |}.

Definition song : Generation :=
  {| Generation.status := completed;
     Generation.progress := Some 100%float;
     Generation.progress_message := None;
     Generation.lyrics := Some (js "la la");
     Generation.title := Some (js "Song");
     Generation.error_message := None |}.

Definition unavailable : Generation :=
  {| Generation.status := failed; Generation.progress := None;
     Generation.progress_message := None; Generation.lyrics := None;
     Generation.title := None;
     Generation.error_message := Some (js "model unavailable") |}.
End Sample.

End Polling.


(* ===================================================================== *)
(** ** Invariants of the task poller *)
(* ===================================================================== *)

Module PollingNotions.
Import JS Polling.

(** The handle the hook holds has been given out. *)
Definition ref_given_out (w : World) : Prop :=
  forall h, pollIntervalRef w = Some h -> (h < nextHandle w)%positive.

(** The fixed cadence: every interval alive has a period of 2000 ms,
    and every timeout is the scroll into view after 200 ms. *)
Definition cadence (w : World) : Prop :=
  (forall h iv, intervals w !! h = Some iv -> period iv = 2000%Z)
  /\ Forall (fun p => p = (scrollResultIntoView, 200%Z)) (timeouts w).

(** A request in flight asks about the task of the interval that sent
    it. *)
Definition requests_match (w : World) : Prop :=
  forall f r iv,
    fetches w !! f = Some r -> intervals w !! interval r = Some iv ->
    task r = taskId iv.

End PollingNotions.


(* ===================================================================== *)
(** ** hooks: [useTrackActions], and the create store it writes *)
(* ===================================================================== *)

Module TrackActions.
Import JS.

Inductive CreateMode := smart | custom.

Inductive PageId := create | library | providers | settings | detail.

(** The fields of a [Generation] that the handlers read; an optional
    field is [None] when it is absent. *)
Record Generation := {
  prompt : jsstring;
  title : option jsstring;
  lyrics : option jsstring;
  genre : option jsstring;
  mood : option jsstring;
  tempo : option number;
  musical_key : option jsstring
}.

(** The fields of the create store that the handlers write.  ([reset]
    sets the other fields to their initial values too; the handlers
    do not write them afterwards.) *)
Module Form.
Record CreateState := {
  mode : CreateMode;
  prompt : jsstring;
  title : jsstring;
  lyrics : jsstring;
  selectedGenres : list jsstring;
  selectedMoods : list jsstring;
  tempo : number;
  musicalKey : jsstring
}.
End Form.
Abbreviation CreateState := Form.CreateState.

Definition initialState : CreateState :=
  {| Form.mode := smart; Form.prompt := []; Form.title := [];
     Form.lyrics := []; Form.selectedGenres := [];
     Form.selectedMoods := []; Form.tempo := 0%float;
     Form.musicalKey := [] |}.

(** The create store and the current page of the app store. *)
Record Stores := {
  createStore : CreateState;
  currentPage : PageId
}.

(** [a === b] on strings. *)
Fixpoint str_eqb (a b : jsstring) : bool :=
  match a, b with
  | [], [] => true
  | x :: a', y :: b' => (x =? y)%N && str_eqb a' b'
  | _, _ => false
  end.

(** [l.includes(g)] *)
Definition includes (l : list jsstring) (g : jsstring) : bool :=
  existsb (str_eqb g) l.

(** The update of [toggleGenre], [toggleMood]:
    [l.includes(g) ? l.filter((x) => x !== g) : [...l, g]]. *)
Definition toggle (g : jsstring) (l : list jsstring) : list jsstring :=
  if includes l g then List.filter (fun x => negb (str_eqb x g)) l
  else l ++ [g].

Definition withForm (f : CreateState -> CreateState) (s : Stores) : Stores :=
  {| createStore := f (createStore s); currentPage := currentPage s |}.

Definition reset : Stores -> Stores := withForm (fun _ => initialState).

Definition setMode (v : CreateMode) : Stores -> Stores :=
  withForm (fun c =>
    {| Form.mode := v; Form.prompt := Form.prompt c;
       Form.title := Form.title c; Form.lyrics := Form.lyrics c;
       Form.selectedGenres := Form.selectedGenres c;
       Form.selectedMoods := Form.selectedMoods c;
       Form.tempo := Form.tempo c; Form.musicalKey := Form.musicalKey c |}).

Definition setPrompt (v : jsstring) : Stores -> Stores :=
  withForm (fun c =>
    {| Form.mode := Form.mode c; Form.prompt := v;
       Form.title := Form.title c; Form.lyrics := Form.lyrics c;
       Form.selectedGenres := Form.selectedGenres c;
       Form.selectedMoods := Form.selectedMoods c;
       Form.tempo := Form.tempo c; Form.musicalKey := Form.musicalKey c |}).

Definition setTitle (v : jsstring) : Stores -> Stores :=
  withForm (fun c =>
    {| Form.mode := Form.mode c; Form.prompt := Form.prompt c;
       Form.title := v; Form.lyrics := Form.lyrics c;
       Form.selectedGenres := Form.selectedGenres c;
       Form.selectedMoods := Form.selectedMoods c;
       Form.tempo := Form.tempo c; Form.musicalKey := Form.musicalKey c |}).

Definition setLyrics (v : jsstring) : Stores -> Stores :=
  withForm (fun c =>
    {| Form.mode := Form.mode c; Form.prompt := Form.prompt c;
       Form.title := Form.title c; Form.lyrics := v;
       Form.selectedGenres := Form.selectedGenres c;
       Form.selectedMoods := Form.selectedMoods c;
       Form.tempo := Form.tempo c; Form.musicalKey := Form.musicalKey c |}).

Definition toggleGenre (g : jsstring) : Stores -> Stores :=
  withForm (fun c =>
    {| Form.mode := Form.mode c; Form.prompt := Form.prompt c;
       Form.title := Form.title c; Form.lyrics := Form.lyrics c;
       Form.selectedGenres := toggle g (Form.selectedGenres c);
       Form.selectedMoods := Form.selectedMoods c;
       Form.tempo := Form.tempo c; Form.musicalKey := Form.musicalKey c |}).

Definition toggleMood (m : jsstring) : Stores -> Stores :=
  withForm (fun c =>
    {| Form.mode := Form.mode c; Form.prompt := Form.prompt c;
       Form.title := Form.title c; Form.lyrics := Form.lyrics c;
       Form.selectedGenres := Form.selectedGenres c;
       Form.selectedMoods := toggle m (Form.selectedMoods c);
       Form.tempo := Form.tempo c; Form.musicalKey := Form.musicalKey c |}).

Definition setTempo (v : number) : Stores -> Stores :=
  withForm (fun c =>
    {| Form.mode := Form.mode c; Form.prompt := Form.prompt c;
       Form.title := Form.title c; Form.lyrics := Form.lyrics c;
       Form.selectedGenres := Form.selectedGenres c;
       Form.selectedMoods := Form.selectedMoods c;
       Form.tempo := v; Form.musicalKey := Form.musicalKey c |}).

Definition setMusicalKey (v : jsstring) : Stores -> Stores :=
  withForm (fun c =>
    {| Form.mode := Form.mode c; Form.prompt := Form.prompt c;
       Form.title := Form.title c; Form.lyrics := Form.lyrics c;
       Form.selectedGenres := Form.selectedGenres c;
       Form.selectedMoods := Form.selectedMoods c;
       Form.tempo := Form.tempo c; Form.musicalKey := v |}).

Definition setCurrentPage (p : PageId) (s : Stores) : Stores :=
  {| createStore := createStore s; currentPage := p |}.

(** Truthiness of an optional string and of an optional number. *)
Definition present (x : option jsstring) : option jsstring :=
  match x with
  | Some v => if truthy v then Some v else None
  | None => None
  end.

Definition present_number (x : option number) : option number :=
  match x with
  | Some v => if (v =? 0)%float || is_nan v then None else Some v
  | None => None
  end.

(** [s.split(",").map((s) => s.trim())] *)
Definition names (s : jsstring) : list jsstring :=
  List.map trim (split (ch ",") s).

(** [for (const g of ...) toggle(g)] *)
Definition toggle_all (toggleOne : jsstring -> Stores -> Stores)
    (gs : list jsstring) (s : Stores) : Stores :=
  fold_left (fun s g => toggleOne g s) gs s.

(** [if (x) k(x)] *)
Definition when_present {A} (x : option A) (k : A -> Stores -> Stores)
    (s : Stores) : Stores :=
  match x with Some v => k v s | None => s end.

Definition handleExtend (gen : Generation) (s : Stores) : Stores :=
  let s := reset s in
  let s := setPrompt (if truthy (prompt gen) then prompt gen else []) s in
  let s := setTitle (match present (title gen) with
                     | Some v => v ++ js " (Extended)"
                     | None => []
                     end) s in
  let s := setLyrics (match present (lyrics gen) with
                      | Some v => v
                      | None => []
                      end) s in
  let s := when_present (present (genre gen))
             (fun v => toggle_all toggleGenre (names v)) s in
  let s := when_present (present (mood gen))
             (fun v => toggle_all toggleMood (names v)) s in
  let s := when_present (present_number (tempo gen)) setTempo s in
  let s := when_present (present (musical_key gen)) setMusicalKey s in
  setCurrentPage create s.

Definition handleRemix (gen : Generation) (s : Stores) : Stores :=
  let s := reset s in
  let s := setPrompt (if truthy (prompt gen)
                      then js "Remix: " ++ prompt gen else []) s in
  let s := setTitle (match present (title gen) with
                     | Some v => v ++ js " (Remix)"
                     | None => []
                     end) s in
  let s := when_present (present (genre gen))
             (fun v => toggle_all toggleGenre (names v)) s in
  let s := when_present (present (mood gen))
             (fun v => toggle_all toggleMood (names v)) s in
  let s := when_present (present_number (tempo gen)) setTempo s in
  let s := when_present (present (musical_key gen)) setMusicalKey s in
  let s := setMode custom s in
  setCurrentPage create s.

(** [a.join(sep)] for a separator of any length. *)
Fixpoint joinWith (sep : jsstring) (a : list jsstring) : jsstring :=
  match a with
  | [] => []
  | [x] => x
  | x :: rest => x ++ sep ++ joinWith sep rest
  end.

(** What the create page sends as the genre (and as the mood) of a
    request: [selected.join(", ") || undefined]. *)
Definition sentField (selected : list jsstring) : option jsstring :=
  present (Some (joinWith (js ", ") selected)).

(** How many times [g] stands in [l]. *)
Definition occurrences (g : jsstring) (l : list jsstring) : nat :=
  length (List.filter (str_eqb g) l).

(** The selection that toggling the names of a field one after the
    other builds from the empty selection. *)
Definition selection (field : option jsstring) : list jsstring :=
  match present field with
  | Some v => fold_left (fun l g => toggle g l) (names v) []
  | None => []
  end.

(** A name the create page can send and get back: not empty, trimmed,
    without a comma. *)
Definition plain_name (g : jsstring) : Prop :=
  g <> [] /\ trim g = g /\ ~ In (ch ",") g.

End TrackActions.

(* ===================================================================== *)
(** ** components: the lyrics panels *)
(* ===================================================================== *)

Module LyricsPanel.
Import JS Lyrics.

(** The properties of [DetailLyricsPanel]; [LyricsPanel] is the same
    component with [isCurrentTrack] always true. *)
Record Props := {
  lyrics : option jsstring;
  lrcLyrics : option jsstring;
  currentTime : number;
  duration : number;
  isCurrentTrack : bool
}.

(** [!x] on an optional string. *)
Definition falsy (x : option jsstring) : bool :=
  match x with Some v => negb (truthy v) | None => true end.

Definition lrcLines (p : Props) : list TimedLyricLine :=
  match lrcLyrics p with
  | Some s => if truthy s then parseLRC s else []
  | None => []
  end.

Definition useLRC (p : Props) : bool := 0 <? length (lrcLines p).

Definition sections (p : Props) : list LyricSection :=
  match lyrics p with
  | Some s => if useLRC p || negb (truthy s) then [] else parseLyrics s
  | None => []
  end.

Definition activeLRCIndex (p : Props) : Z :=
  if negb (useLRC p) || negb (isCurrentTrack p) then (-1)%Z
  else findActiveLRCIndex (lrcLines p) (currentTime p).

(** What the panel renders: the notice that there are no lyrics, the
    timed lines, or the sections. *)
Inductive View :=
| Notice
| TimedLines (ls : list TimedLyricLine)
| Sections (ss : list LyricSection).

Definition view (p : Props) : View :=
  if falsy (lyrics p) && falsy (lrcLyrics p) then Notice
  else if useLRC p then TimedLines (lrcLines p)
  else Sections (sections p).

End LyricsPanel.


(* ===================================================================== *)
(** ** What the specification says of the lyrics functions *)
(* ===================================================================== *)

Module LyricsSpec.
Import JS Regex Lyrics.

(** A starred one-unit class, unfolded along the input: one more unit
    first, the continuation otherwise. *)
Fixpoint star_cls (p : char -> bool) (k : cont) (i : nat) (s : jsstring)
    (c : caps) : option caps :=
  match s with
  | x :: s' =>
      if p x then
        match star_cls p k (S i) s' c with
        | Some res => Some res
        | None => k i s c
        end
      else k i s c
  | [] => k i s c
  end.

(** [s] is [body] followed by a closing bracket, no unit of [body] being
    a line terminator: the [body]. *)
Fixpoint upto_closing (s : jsstring) : option jsstring :=
  match s with
  | [] => None
  | x :: s' =>
      match s' with
      | [] => if (x =? ch "]")%N then Some [] else None
      | _ :: _ =>
          if is_dot x then option_map (cons x) (upto_closing s') else None
      end
  end.

(** A line that is exactly [[TagName]]: the tag name. *)
Definition tag_name (line : jsstring) : option jsstring :=
  match line with
  | x :: s =>
      if (x =? ch "[")%N then
        match upto_closing s with
        | Some (y :: name) => Some (y :: name)
        | _ => None
        end
      else None
  | [] => None
  end.

(** The pending section, when it has a tag or a line. *)
Definition emit (tag : jsstring) (acc : list jsstring)
    : list (jsstring * list jsstring) :=
  match tag, acc with
  | [], [] => []
  | _, _ => [(tag, acc)]
  end.

(** The scan of section-tag mode: a tag line closes the pending section
    and opens the next, any other line joins the pending section, and
    the end of the input closes the last one. *)
Fixpoint scan (tag : jsstring) (acc : list jsstring) (ls : list jsstring)
    : list (jsstring * list jsstring) :=
  match ls with
  | [] => emit tag acc
  | l :: ls' =>
      match tag_name l with
      | Some name => emit tag acc ++ scan name [] ls'
      | None => scan tag (acc ++ [l]) ls'
      end
  end.

(** Sections numbered by position, from [n] on. *)
Fixpoint numbered (n : nat) (secs : list (jsstring * list jsstring))
    : list LyricSection :=
  match secs with
  | [] => []
  | (t, ls) :: secs' =>
      {| tag := t; lines := ls; index := n |} :: numbered (S n) secs'
  end.

(** The tag line of a section, when it has a tag. *)
Definition header (tag : jsstring) : list jsstring :=
  match tag with
  | [] => []
  | _ :: _ => [ch "[" :: tag ++ [ch "]"]]
  end.

(** The source lines a section stands for: its tag line and its lines. *)
Definition render (sec : LyricSection) : list jsstring :=
  header (tag sec) ++ lines sec.

(** The fields of a line [[MM:SS.ff]text] as the pattern of the code
    finds them: the fraction is of two or three digits, and the text
    is free of line terminators, since the dot of the pattern matches
    none. *)
Definition lrc_fields (raw : jsstring)
    : option (jsstring * jsstring * jsstring * jsstring) :=
  match raw with
  | b :: m1 :: m2 :: co :: s1 :: s2 :: dt :: f1 :: f2 :: x :: rest =>
      if (b =? ch "[")%N && is_digit m1 && is_digit m2 && (co =? ch ":")%N
         && is_digit s1 && is_digit s2 && (dt =? ch ".")%N
         && is_digit f1 && is_digit f2
      then
        if is_digit x then
          match rest with
          | y :: txt =>
              if (y =? ch "]")%N && forallb is_dot txt
              then Some ([m1; m2], [s1; s2], [f1; f2; x], txt)
              else None
          | [] => None
          end
        else if (x =? ch "]")%N && forallb is_dot rest
             then Some ([m1; m2], [s1; s2], [f1; f2], rest)
             else None
      else None
  | _ => None
  end.

(** Seconds of a time stamp: a fraction of two digits counts
    hundredths, one of three digits thousandths. *)
Definition seconds_of (mm ss ff : jsstring) : number :=
  let ms := if length ff =? 2 then (decimal ff * 10)%Z else decimal ff in
  (of_Z (decimal mm) * 60 + of_Z (decimal ss) + of_Z ms / 1000)%float.

(** The timed line a source line yields, if any. *)
Definition lrc_line (raw : jsstring) : option TimedLyricLine :=
  match lrc_fields raw with
  | Some (mm, ss, ff, txt) =>
      if truthy (trim txt) && negb (test SECTION_PATTERN (trim txt))
      then Some {| time := seconds_of mm ss ff; text := trim txt |}
      else None
  | None => None
  end.

(** A time-coded source line: its time and its trimmed text. *)
Definition stamped (raw : jsstring) : option (number * jsstring) :=
  match lrc_fields raw with
  | Some (mm, ss, ff, txt) => Some (seconds_of mm ss ff, trim txt)
  | None => None
  end.

(** Non-decreasing time values: no line is later than the next one. *)
Definition nondecreasing (ls : list TimedLyricLine) : Prop :=
  forall i a b,
    nth_error ls i = Some a -> nth_error ls (S i) = Some b ->
    (time a <=? time b)%float = true.

(** Sample lines, at 0, 5 and 10 seconds. *)
Definition three_lines : list TimedLyricLine :=
  [ {| time := 0%float; text := js "a" |};
    {| time := 5%float; text := js "b" |};
    {| time := 10%float; text := js "c" |} ].

End LyricsSpec.


(* ===================================================================== *)
(** ** Further notions for the lyrics functions *)
(* ===================================================================== *)

Module LyricsNotions.
Import JS Regex Lyrics LyricsSpec.

Definition CR : char := 13%N.

(** A tag line. *)
Definition is_tag_line (line : jsstring) : bool :=
  match tag_name line with Some _ => true | None => false end.

(** A line of a text with CRLF line ends, once split at LF: it ends in
    a carriage return, or it is the empty line after the last LF. *)
Definition cr_terminated (raw : jsstring) : Prop :=
  raw = [] \/ exists body, raw = body ++ [CR].

(** The classes of a pattern do not tell a unit from its canonical
    form. *)
Fixpoint caseless (r : regex) : Prop :=
  match r with
  | Eps | Bol | Eol => True
  | Cls p => forall x, p (canonicalize x) = p x
  | Seq r1 r2 | Alt r1 r2 => caseless r1 /\ caseless r2
  | Star r' | Grp _ r' => caseless r'
  end.

(** Two continuations that succeed together, the second on the
    canonical form of the input of the first. *)
Definition cont_alike (k k' : cont) : Prop :=
  forall i s c c',
    is_Some (k i s c) <-> is_Some (k' i (List.map canonicalize s) c').

(** How many lines, from the first on, are not after [t]. *)
Fixpoint passing (t : number) (ls : list TimedLyricLine) : nat :=
  match ls with
  | l :: rest => if (time l <=? t)%float then S (passing t rest) else 0
  | [] => 0
  end.

End LyricsNotions.


(* ===================================================================== *)
(** ** [parseLRC] as the specification words it *)
(* ===================================================================== *)

Module LrcWords.
Import JS Regex Lyrics LyricsSpec.





End LrcWords.


(* ===================================================================== *)
(** ** Facts about strings and the matcher *)
(* ===================================================================== *)

Module JSFacts.
Import JS.

Lemma split_cons sep s : exists l ls, split sep s = l :: ls.
Proof.
  destruct s as [|c s]; simpl; [eauto|].
  destruct (c =? sep)%N; [eauto|].
  destruct (split sep s); eauto.
Qed.

Lemma join_cons sep l l' ls :
  join sep (l :: l' :: ls) = l ++ sep :: join sep (l' :: ls).
Proof. reflexivity. Qed.

(** Splitting at a separator and joining with it gives the string back. *)
Lemma join_split sep s : join sep (split sep s) = s.
Proof.
  induction s as [|c s IH]; [reflexivity|].
  simpl. destruct (N.eqb_spec c sep) as [->|Hne].
  - destruct (split_cons sep s) as (l & ls & E). rewrite E in *.
    rewrite join_cons, IH. reflexivity.
  - destruct (split_cons sep s) as (l & ls & E). rewrite E in *.
    destruct ls as [|l' ls]; [simpl in *; now rewrite IH|].
    rewrite join_cons, <- IH, join_cons. reflexivity.
Qed.

End JSFacts.

Module RegexFacts.
Import JS Regex LyricsSpec.

(** A pattern that opens with [^] matches at index 0 or nowhere. *)
Lemma exec_from_Bol r s : forall i, (0 < i)%nat ->
  exec_from (Seq Bol r) i s = None.
Proof.
  induction s as [|x s IH]; intros i Hi; simpl;
    destruct i; try lia; simpl; auto with arith.
Qed.

Lemma exec_anchored r s :
  exec (Seq Bol r) s = run r 0 s [] (fun _ _ c => Some c).
Proof.
  unfold exec. destruct s as [|x s]; simpl.
  - now destruct (run r 0 [] [] _).
  - destruct (run r 0 (x :: s) [] _); [reflexivity|].
    apply exec_from_Bol. lia.
Qed.

Lemma star_cls_cons p k i x s c :
  star_cls p k i (x :: s) c =
  if p x then
    match star_cls p k (S i) s c with
    | Some res => Some res
    | None => k i (x :: s) c
    end
  else k i (x :: s) c.
Proof. reflexivity. Qed.

Lemma star_cls_ext p k1 k2 :
  (forall i s c, k1 i s c = k2 i s c) ->
  forall s i c, star_cls p k1 i s c = star_cls p k2 i s c.
Proof.
  intros Hk. induction s as [|x s IH]; intros i c; simpl; [apply Hk|].
  rewrite IH, Hk. reflexivity.
Qed.

(** The repeat loop over a one-unit class is [star_cls]. *)
Lemma repeat_cls p k : forall n s i c, (length s <= n)%nat ->
  repeat (run (Cls p)) k n i s c = star_cls p k i s c.
Proof.
  induction n as [|n IH]; intros s i c Hn.
  - destruct s; simpl in *; [reflexivity|lia].
  - destruct s as [|x s]; simpl; [reflexivity|].
    destruct (p x); [|reflexivity].
    replace (i <? S i) with true by (symmetry; apply Nat.ltb_lt; lia).
    rewrite IH by (simpl in Hn; lia). reflexivity.
Qed.

End RegexFacts.


Module TagFacts.
Import JS Regex Lyrics LyricsSpec RegexFacts.

Lemma upto_closing_star (F : nat -> caps -> option caps) :
  forall s i c,
    star_cls is_dot
      (fun i' s' c' =>
         match s' with
         | [x] => if (ch "]" =? x)%N then F i' c' else None
         | _ => None
         end) i s c
    = match upto_closing s with
      | Some body => F (i + length body) c
      | None => None
      end.
Proof.
  induction s as [|x s IH]; intros i c; [reflexivity|].
  destruct s as [|y s].
  - cbn [star_cls upto_closing]. rewrite (N.eqb_sym x).
    destruct (is_dot x), (ch "]" =? x)%N; cbn [length];
      now rewrite ?Nat.add_0_r.
  - rewrite star_cls_cons, IH.
    change (upto_closing (x :: y :: s))
      with (if is_dot x then option_map (cons x) (upto_closing (y :: s))
            else None).
    destruct (is_dot x); [|reflexivity].
    destruct (upto_closing (y :: s)) as [body|]; cbn [option_map length].
    + rewrite Nat.add_succ_r. now destruct (F _ c).
    + reflexivity.
Qed.

(** What [upto_closing] computes. *)
Lemma upto_closing_spec s body :
  upto_closing s = Some body <->
  s = body ++ [ch "]"] /\ forallb is_dot body = true.
Proof.
  revert body. induction s as [|x s IH]; intros body.
  - split; [discriminate|]. intros [E _]. now destruct body.
  - destruct s as [|y s].
    + cbn [upto_closing]. destruct (N.eqb_spec x (ch "]")) as [->|Hne].
      * split.
        -- intros [= <-]. now split.
        -- intros [E _]. destruct body as [|b body]; [reflexivity|].
           injection E as _ E. now destruct body.
      * split; [discriminate|]. intros [E _].
        destruct body as [|b body].
        -- injection E as E. contradiction.
        -- injection E as _ E. now destruct body.
    + change (upto_closing (x :: y :: s))
        with (if is_dot x then option_map (cons x) (upto_closing (y :: s))
              else None).
      split.
      * destruct (is_dot x) eqn:Hx; [|discriminate].
        destruct (upto_closing (y :: s)) as [body'|] eqn:E; [|discriminate].
        intros [= <-]. destruct (proj1 (IH body') eq_refl) as [E' Hd].
        rewrite E'. split; [reflexivity|].
        cbn [forallb]. now rewrite Hx, Hd.
      * intros [E Hd]. destruct body as [|b body]; [discriminate|].
        injection E as -> E. cbn [forallb] in Hd.
        apply andb_true_iff in Hd as [Hb Hd]. rewrite Hb.
        assert (upto_closing (y :: s) = Some body) as -> by (apply IH; auto).
        reflexivity.
Qed.

(** A tag line is an opening bracket, a name that is not empty and has
    no line terminator, and a closing bracket. *)
Lemma tag_name_spec line name :
  tag_name line = Some name <->
  line = ch "[" :: name ++ [ch "]"] /\ name <> [] /\ forallb is_dot name = true.
Proof.
  split.
  - destruct line as [|x s]; cbn [tag_name]; [discriminate|].
    destruct (N.eqb_spec x (ch "[")) as [->|Hne]; [|discriminate].
    destruct (upto_closing s) as [[|y body]|] eqn:E; try discriminate.
    apply upto_closing_spec in E as [-> Hd].
    intros [= <-]. repeat split; [discriminate|assumption].
  - intros (-> & Hn & Hd). cbn [tag_name]. rewrite N.eqb_refl.
    rewrite (proj2 (upto_closing_spec _ name)) by auto.
    destruct name; [contradiction|reflexivity].
Qed.

(** The section-tag pattern recognises the tag lines and captures the
    tag name. *)
Lemma exec_TAG line :
  option_map (capture 1) (exec TAG_PATTERN line) = tag_name line.
Proof.
  unfold TAG_PATTERN. cbn [seqs]. rewrite exec_anchored.
  destruct line as [|x s]; [reflexivity|].
  cbn [run Chr Plus tag_name]. rewrite (N.eqb_sym x).
  destruct (ch "[" =? x)%N; [|reflexivity].
  destruct s as [|x0 s']; [reflexivity|].
  rewrite (repeat_cls is_dot) by lia.
  rewrite (star_cls_ext is_dot _
             (fun i' s0 c' =>
                match s0 with
                | [x1] => if (ch "]" =? x1)%N
                          then Some ((1, firstn (i' - 1) (x0 :: s')) :: c')
                          else None
                | _ => None
                end))
    by (intros i [|a [|b l]] c; try reflexivity;
        now destruct (ch "]" =? a)%N).
  rewrite (upto_closing_star
             (fun i' c' => Some ((1, firstn (i' - 1) (x0 :: s')) :: c'))).
  destruct s' as [|y s''].
  - cbn [upto_closing]. now destruct (is_dot x0), (x0 =? ch "]")%N.
  - change (upto_closing (x0 :: y :: s''))
      with (if is_dot x0 then option_map (cons x0) (upto_closing (y :: s''))
            else None).
    destruct (is_dot x0); [|reflexivity].
    destruct (upto_closing (y :: s'')) as [body|] eqn:E; [|reflexivity].
    apply upto_closing_spec in E as [E _]. rewrite E.
    cbn [option_map capture group Nat.eqb].
    replace (2 + length body - 1) with (S (length body)) by lia.
    cbn [firstn]. now rewrite firstn_app, firstn_all, Nat.sub_diag, app_nil_r.
Qed.

End TagFacts.


(* ===================================================================== *)
(** ** Section-tag mode: [parseLyrics] *)
(* ===================================================================== *)

Module ParseLyricsProofs.
Import JS Regex Lyrics LyricsSpec JSFacts RegexFacts TagFacts.

Lemma step_tag st line name :
  tag_name line = Some name ->
  parseLyrics_step st line =
    {| sections := sections (flush st); currentTag := name;
       currentLines := []; sectionIndex := sectionIndex (flush st) |}.
Proof.
  intros H. unfold parseLyrics_step. rewrite <- exec_TAG in H.
  destruct (exec TAG_PATTERN line) as [m|]; [|discriminate].
  injection H as ->. reflexivity.
Qed.

Lemma step_other st line :
  tag_name line = None ->
  parseLyrics_step st line =
    {| sections := sections st; currentTag := currentTag st;
       currentLines := currentLines st ++ [line];
       sectionIndex := sectionIndex st |}.
Proof.
  intros H. unfold parseLyrics_step. rewrite <- exec_TAG in H.
  now destruct (exec TAG_PATTERN line) as [m|].
Qed.

Lemma numbered_app n a b :
  numbered n (a ++ b) = numbered n a ++ numbered (n + length a) b.
Proof.
  revert n. induction a as [|[t ls] a IH]; intros n; simpl.
  - now rewrite Nat.add_0_r.
  - rewrite IH. now rewrite Nat.add_succ_r.
Qed.

Lemma flush_emit st :
  sections (flush st) =
    sections st ++
      numbered (sectionIndex st) (emit (currentTag st) (currentLines st))
  /\ sectionIndex (flush st) =
       sectionIndex st + length (emit (currentTag st) (currentLines st)).
Proof.
  unfold flush, emit.
  destruct (currentLines st) as [|l ls], (currentTag st) as [|t ts];
    simpl; rewrite ?app_nil_r; split; auto; lia.
Qed.

(** The loop, from any state on, emits what the scan of the
    specification emits for the pending section and the lines left. *)
Lemma fold_scan ls : forall st,
  sections (flush (fold_left parseLyrics_step ls st)) =
    sections st ++
      numbered (sectionIndex st)
        (scan (currentTag st) (currentLines st) ls).
Proof.
  induction ls as [|l ls IH]; intros st; cbn [fold_left scan].
  - apply flush_emit.
  - destruct (tag_name l) as [name|] eqn:E.
    + rewrite (step_tag _ _ _ E), IH. cbn [sections currentTag currentLines sectionIndex].
      destruct (flush_emit st) as [-> ->].
      now rewrite numbered_app, app_assoc.
    + rewrite (step_other _ _ E), IH. reflexivity.
Qed.

Lemma parseLyrics_flush lyrics :
  parseLyrics lyrics =
    sections (flush (fold_left parseLyrics_step (split LF lyrics)
                       parseLyrics_init)).
Proof.
  unfold parseLyrics, flush.
  now destruct (_ || _).
Qed.

Lemma parseLyrics_scan lyrics :
  parseLyrics lyrics = numbered 0 (scan [] [] (split LF lyrics)).
Proof. rewrite parseLyrics_flush, fold_scan. reflexivity. Qed.

(** C7: [parseLyrics] scans the lines of its input: a line that is
    exactly [[TagName]] closes the pending section and opens the next
    one, every other line joins the pending section, and the end of the
    input closes the last one; a pending section is emitted when it has
    a tag or a line.  On the input of the specification it yields the
    sections Verse (line1, line2; index 0) and Chorus (line3; index 1). *)
Theorem parseLyrics_sections :
  (forall lyrics,
     parseLyrics lyrics = numbered 0 (scan [] [] (split LF lyrics)))
  /\ parseLyrics
       (join LF [js "[Verse]"; js "line1"; js "line2"; js "[Chorus]";
                 js "line3"])
     = [ {| tag := js "Verse"; lines := [js "line1"; js "line2"];
            index := 0 |};
         {| tag := js "Chorus"; lines := [js "line3"]; index := 1 |} ].
Proof.
  split; [apply parseLyrics_scan|]. vm_compute. reflexivity.
Qed.

Lemma numbered_nth secs : forall n k sec,
  nth_error (numbered n secs) k = Some sec -> index sec = n + k.
Proof.
  induction secs as [|[t ls] secs IH]; intros n k sec; simpl.
  - now destruct k.
  - destruct k as [|k]; simpl.
    + intros [= <-]. simpl. lia.
    + intros H. apply IH in H. lia.
Qed.

(** C10: the [index] of the k-th section (from 0) that [parseLyrics]
    returns is k. *)
Theorem parseLyrics_index lyrics k sec :
  nth_error (parseLyrics lyrics) k = Some sec -> index sec = k.
Proof.
  rewrite parseLyrics_scan. intros H. now apply numbered_nth in H.
Qed.

Lemma parseLyrics_index_witness :
  nth_error (parseLyrics (join LF [js "intro"; js "[A]"; js "x"])) 1
    = Some {| tag := js "A"; lines := [js "x"]; index := 1 |}
  /\ index {| tag := js "A"; lines := [js "x"]; index := 1 |} = 1.
Proof.
  split; [vm_compute; reflexivity|].
  apply (parseLyrics_index (join LF [js "intro"; js "[A]"; js "x"]) 1).
  vm_compute. reflexivity.
Defined.

Lemma render_emit n tag acc :
  flat_map render (numbered n (emit tag acc)) = header tag ++ acc.
Proof.
  destruct tag, acc; cbn [emit numbered flat_map]; rewrite ?app_nil_r;
    reflexivity.
Qed.

Lemma render_scan ls : forall n tag acc,
  flat_map render (numbered n (scan tag acc ls)) = header tag ++ acc ++ ls.
Proof.
  induction ls as [|l ls IH]; intros n tag acc; cbn [scan].
  - now rewrite render_emit, app_nil_r.
  - destruct (tag_name l) as [name|] eqn:E.
    + rewrite numbered_app, flat_map_app, render_emit, IH.
      apply tag_name_spec in E as (-> & Hn & _).
      destruct name; [contradiction|]. rewrite <- app_assoc. reflexivity.
    + rewrite IH, <- app_assoc. reflexivity.
Qed.

Lemma render_parseLyrics lyrics :
  flat_map render (parseLyrics lyrics) = split LF lyrics.
Proof. rewrite parseLyrics_scan. apply render_scan. Qed.

(** C9: within each section that [parseLyrics] produces, the lines are
    a run of consecutive source lines in their source order; writing
    each section back as its tag line followed by its lines, section
    after section, gives the source text again. *)
Theorem parseLyrics_round_trip lyrics :
  Forall (fun sec => exists pre post,
            split LF lyrics = pre ++ lines sec ++ post)
         (parseLyrics lyrics)
  /\ join LF (flat_map render (parseLyrics lyrics)) = lyrics.
Proof.
  split.
  - apply List.Forall_forall. intros sec Hin.
    apply in_split in Hin as (s1 & s2 & E).
    pose proof (render_parseLyrics lyrics) as R.
    rewrite E, flat_map_app in R. cbn [flat_map] in R.
    exists (flat_map render s1 ++ header (tag sec)), (flat_map render s2).
    rewrite <- R. unfold render. now rewrite <- !app_assoc.
  - rewrite render_parseLyrics. apply join_split.
Qed.

End ParseLyricsProofs.


(* ===================================================================== *)
(** ** Time-coded mode: [parseLRC], [lrcToPlain], [findActiveLRCIndex] *)
(* ===================================================================== *)

Module LrcFacts.
Import JS Regex Lyrics LyricsSpec JSFacts RegexFacts.

(** A starred dot that must reach the end of the input. *)
Lemma star_dot_eol (F : nat -> caps -> option caps) :
  forall s i c,
    star_cls is_dot
      (fun i' s' c' => match s' with [] => F i' c' | _ :: _ => None end)
      i s c
    = if forallb is_dot s then F (i + length s) c else None.
Proof.
  induction s as [|x s IH]; intros i c.
  - cbn. now rewrite Nat.add_0_r.
  - rewrite star_cls_cons, IH. cbn [forallb length].
    destruct (is_dot x); [|reflexivity]. cbn [andb].
    rewrite Nat.add_succ_r.
    destruct (forallb is_dot s); [|reflexivity].
    now destruct (F _ c).
Qed.

Lemma digit_not_closing x : is_digit x = true -> (ch "]" =? x)%N = false.
Proof.
  unfold is_digit. intros H. apply andb_true_iff in H as [_ H].
  apply N.leb_le in H. apply N.eqb_neq. intros <-.
  revert H. vm_compute. intros H. now apply H.
Qed.

Lemma exec_LRC raw :
  match exec LRC_PATTERN raw with
  | Some m =>
      lrc_fields raw =
        Some (capture 1 m, capture 2 m, capture 3 m, capture 4 m)
  | None => lrc_fields raw = None
  end.
Proof.
  unfold LRC_PATTERN. cbn [seqs]. rewrite exec_anchored.
  destruct raw as [|b [|m1 [|m2 [|co [|s1 [|s2 [|dt [|f1 [|f2 [|x rest]]]]]]]]]];
    cbn [run Chr Rep2 Rep2to3 Opt digit lrc_fields];
    try (repeat match goal with
                | |- context [if ?b then _ else _] => destruct b
                end; reflexivity).
  rewrite (repeat_cls is_dot) by lia. rewrite star_dot_eol.
  rewrite (N.eqb_sym b), (N.eqb_sym co), (N.eqb_sym dt), (N.eqb_sym x).
  destruct (ch "[" =? b)%N; [|reflexivity].
  destruct (is_digit m1); [|reflexivity].
  destruct (is_digit m2); [|reflexivity].
  destruct (ch ":" =? co)%N; [|reflexivity].
  destruct (is_digit s1); [|reflexivity].
  destruct (is_digit s2); [|reflexivity].
  destruct (ch "." =? dt)%N; [|reflexivity].
  destruct (is_digit f1); [|reflexivity].
  destruct (is_digit f2); [|reflexivity].
  cbn [andb]. destruct (is_digit x) eqn:Hx.
  - rewrite (digit_not_closing x Hx).
    destruct rest as [|y txt]; [reflexivity|].
    rewrite (repeat_cls is_dot) by lia. rewrite star_dot_eol.
    rewrite (N.eqb_sym y). destruct (ch "]" =? y)%N; [|reflexivity].
    cbn [andb]. destruct (forallb is_dot txt); [|reflexivity].
    cbn [capture group Nat.eqb Nat.sub firstn].
    replace (11 + length txt - 11) with (length txt) by lia.
    now rewrite firstn_all.
  - destruct (ch "]" =? x)%N; [|reflexivity].
    cbn [andb]. destruct (forallb is_dot rest); [|reflexivity].
    cbn [capture group Nat.eqb Nat.sub firstn].
    replace (10 + length rest - 10) with (length rest) by lia.
    now rewrite firstn_all.
Qed.

End LrcFacts.


Module FloatFacts.
Import JS.

Lemma SFcompare_finite_pos m1 e1 m2 e2 :
  SFcompare (S754_finite false m1 e1) (S754_finite false m2 e2) =
  Some match Z.compare e1 e2 with
       | Lt => Lt | Gt => Gt | Eq => Pos.compare m1 m2
       end.
Proof. reflexivity. Qed.

Lemma SFcompare_finite_neg m1 e1 m2 e2 :
  SFcompare (S754_finite true m1 e1) (S754_finite true m2 e2) =
  Some match Z.compare e1 e2 with
       | Lt => Gt | Gt => Lt | Eq => CompOpp (Pos.compare m1 m2)
       end.
Proof. reflexivity. Qed.

Lemma SFleb_trans x y z :
  SFleb x y = true -> SFleb y z = true -> SFleb x z = true.
Proof.
  unfold SFleb.
  destruct x as [[]|[]| |[] mx ex], y as [[]|[]| |[] my ey],
           z as [[]|[]| |[] mz ez];
    try (cbn; congruence);
    rewrite ?SFcompare_finite_pos, ?SFcompare_finite_neg;
    repeat match goal with
           | |- context [Z.compare ?a ?b] =>
               destruct (Z.compare_spec a b); subst
           | |- context [Pos.compare ?a ?b] =>
               destruct (Pos.compare_spec a b); subst
           end;
    cbn; try congruence; try lia.
Qed.

Lemma SFltb_not_leb x y : SFltb x y = true -> SFleb y x = false.
Proof.
  unfold SFltb, SFleb.
  destruct x as [[]|[]| |[] mx ex], y as [[]|[]| |[] my ey];
    try (cbn; congruence);
    rewrite ?SFcompare_finite_pos, ?SFcompare_finite_neg;
    repeat match goal with
           | |- context [Z.compare ?a ?b] =>
               destruct (Z.compare_spec a b); subst
           | |- context [Pos.compare ?a ?b] =>
               destruct (Pos.compare_spec a b); subst
           end;
    cbn; try congruence; try lia.
Qed.

(** [<=] on numbers is transitive. *)
Lemma leb_trans (a b c : number) :
  (a <=? b)%float = true -> (b <=? c)%float = true ->
  (a <=? c)%float = true.
Proof. rewrite !leb_spec. apply SFleb_trans. Qed.

(** [a < b] excludes [b <= a]. *)
Lemma ltb_not_leb (a b : number) :
  (a <? b)%float = true -> (b <=? a)%float = false.
Proof. rewrite ltb_spec, leb_spec. apply SFltb_not_leb. Qed.

End FloatFacts.


Module LrcProofs.
Import JS Regex Lyrics LyricsSpec LrcWords JSFacts RegexFacts LrcFacts FloatFacts.

(** The digits. *)
Lemma is_digit_cases x :
  is_digit x = true ->
  In x [48; 49; 50; 51; 52; 53; 54; 55; 56; 57]%N.
Proof.
  unfold is_digit. intros H. apply andb_true_iff in H as [H1 H2].
  apply N.leb_le in H1. apply N.leb_le in H2.
  assert (x = 48 \/ x = 49 \/ x = 50 \/ x = 51 \/ x = 52 \/ x = 53
          \/ x = 54 \/ x = 55 \/ x = 56 \/ x = 57)%N as Hc by lia.
  cbn [In]. intuition auto.
Qed.

(** Ten times a fraction of two digits is computed exactly, in the
    integers or in the numbers. *)
Lemma centiseconds_exact f1 f2 :
  is_digit f1 = true -> is_digit f2 = true ->
  (parseInt10 [f1; f2] * 10)%float = of_Z (decimal [f1; f2] * 10).
Proof.
  intros H1 H2. apply is_digit_cases in H1, H2. cbn [In] in H1, H2.
  repeat (destruct H1 as [<-|H1]; [|]);
    try contradiction;
    repeat (destruct H2 as [<-|H2]; [|]);
    try contradiction; vm_compute; reflexivity.
Qed.

Lemma lrc_fields_digits raw mm ss ff txt :
  lrc_fields raw = Some (mm, ss, ff, txt) ->
  raw = ch "[" :: mm ++ ch ":" :: ss ++ ch "." :: ff ++ ch "]" :: txt
  /\ length mm = 2 /\ length ss = 2 /\ (length ff = 2 \/ length ff = 3)
  /\ forallb is_digit (mm ++ ss ++ ff) = true
  /\ forallb is_dot txt = true.
Proof.
  destruct raw as [|b [|m1 [|m2 [|co [|s1 [|s2 [|dt [|f1 [|f2 [|x rest]]]]]]]]]];
    try discriminate.
  cbn [lrc_fields].
  destruct (N.eqb_spec b (ch "[")) as [->|]; [|discriminate].
  destruct (is_digit m1) eqn:Hm1; [|discriminate].
  destruct (is_digit m2) eqn:Hm2; [|discriminate].
  destruct (N.eqb_spec co (ch ":")) as [->|]; [|discriminate].
  destruct (is_digit s1) eqn:Hs1; [|discriminate].
  destruct (is_digit s2) eqn:Hs2; [|discriminate].
  destruct (N.eqb_spec dt (ch ".")) as [->|]; [|discriminate].
  destruct (is_digit f1) eqn:Hf1; [|discriminate].
  destruct (is_digit f2) eqn:Hf2; [|discriminate].
  cbn [andb]. destruct (is_digit x) eqn:Hx.
  - destruct rest as [|y txt']; [discriminate|].
    destruct (N.eqb_spec y (ch "]")) as [->|]; [|discriminate].
    cbn [andb]. destruct (forallb is_dot txt') eqn:Hd; [|discriminate].
    intros [= <- <- <- <-]. cbn [app length forallb].
    rewrite Hm1, Hm2, Hs1, Hs2, Hf1, Hf2, Hx. auto 10.
  - destruct (N.eqb_spec x (ch "]")) as [->|]; [|discriminate].
    cbn [andb]. destruct (forallb is_dot rest) eqn:Hd; [|discriminate].
    intros [= <- <- <- <-]. cbn [app length forallb].
    rewrite Hm1, Hm2, Hs1, Hs2, Hf1, Hf2. auto 10.
Qed.

(** The time the code computes from the captures is the time of the
    stamp. *)
Lemma lrc_time_seconds raw m :
  exec LRC_PATTERN raw = Some m ->
  lrc_time m = seconds_of (capture 1 m) (capture 2 m) (capture 3 m).
Proof.
  intros E. pose proof (exec_LRC raw) as H. rewrite E in H.
  apply lrc_fields_digits in H as (_ & _ & _ & Hl & Hd & _).
  unfold lrc_time, seconds_of.
  destruct (length (capture 3 m) =? 2) eqn:E2; [|reflexivity].
  apply Nat.eqb_eq in E2.
  destruct (capture 3 m) as [|f1 [|f2 [|f3 ff]]]; try discriminate.
  rewrite !forallb_app in Hd. cbn [forallb] in Hd.
  apply andb_true_iff in Hd as [_ Hd]. apply andb_true_iff in Hd as [_ Hd].
  apply andb_true_iff in Hd as [H1 Hd]. apply andb_true_iff in Hd as [H2 _].
  now rewrite centiseconds_exact.
Qed.

Lemma parseLRC_step_line acc raw :
  parseLRC_step acc raw =
    acc ++ match lrc_line raw with Some l => [l] | None => [] end.
Proof.
  unfold parseLRC_step, lrc_line.
  pose proof (exec_LRC raw) as H. pose proof (lrc_time_seconds raw) as T.
  destruct (exec LRC_PATTERN raw) as [m|]; rewrite H.
  - rewrite (T m eq_refl).
    destruct (truthy _ && _); [reflexivity|now rewrite app_nil_r].
  - now rewrite app_nil_r.
Qed.

Lemma parseLRC_fold ls : forall acc,
  fold_left parseLRC_step ls acc = acc ++ omap lrc_line ls.
Proof.
  induction ls as [|raw ls IH]; intros acc; cbn [fold_left].
  - now rewrite app_nil_r.
  - rewrite IH, parseLRC_step_line. cbn [omap list_omap].
    destruct (lrc_line raw); now rewrite <- app_assoc.
Qed.







(** A line whose text is a structural marker is left out. *)
Lemma parseLRC_marker :
  parseLRC (join LF [js "[00:01.50]Verse"; js "[00:03.00]World"])
    = [ {| time := 3.0%float; text := js "World" |} ].
Proof. vm_compute. reflexivity. Qed.

(** Any line of the form [[MM:SS.ff]text] has its fields found. *)
Lemma lrc_fields_complete mm ss ff txt :
  length mm = 2 -> length ss = 2 -> length ff = 2 \/ length ff = 3 ->
  forallb is_digit (mm ++ ss ++ ff) = true ->
  forallb is_dot txt = true ->
  lrc_fields (ch "[" :: mm ++ ch ":" :: ss ++ ch "." :: ff ++ ch "]" :: txt)
    = Some (mm, ss, ff, txt).
Proof.
  intros Hm Hs Hf Hd Ht.
  destruct mm as [|m1 [|m2 [|? ?]]]; try discriminate.
  destruct ss as [|s1 [|s2 [|? ?]]]; try discriminate.
  rewrite !forallb_app in Hd.
  destruct Hf as [Hf|Hf];
    [destruct ff as [|f1 [|f2 [|? ?]]]
    |destruct ff as [|f1 [|f2 [|f3 [|? ?]]]]]; try discriminate;
    cbn [forallb] in Hd;
    repeat match goal with
           | H : _ && _ = true |- _ =>
               apply andb_true_iff in H; destruct H
           end;
    cbn [app lrc_fields];
    repeat match goal with
           | H : is_digit _ = true |- _ => rewrite H; clear H
           end;
    rewrite !N.eqb_refl; cbn [andb];
    replace (is_digit (ch "]")) with false by (vm_compute; reflexivity);
    now rewrite Ht.
Qed.

End LrcProofs.


Module ActiveLineProofs.
Import JS Lyrics LyricsSpec FloatFacts.

Lemma nondecreasing_tail a ls : nondecreasing (a :: ls) -> nondecreasing ls.
Proof. intros H i x y Hx Hy. exact (H (S i) x y Hx Hy). Qed.

(** In a non-decreasing list the first line is not later than any
    other. *)
Lemma nondecreasing_head ls : forall a b,
  nondecreasing (a :: ls) -> In b ls ->
  (time a <=? time b)%float = true.
Proof.
  induction ls as [|c ls IH]; intros a b Hs Hin; [contradiction|].
  assert ((time a <=? time c)%float = true) as Hac
    by exact (Hs 0 a c eq_refl eq_refl).
  destruct Hin as [<-|Hin]; [assumption|].
  apply (leb_trans _ (time c)); [assumption|].
  apply IH; [|assumption]. now apply nondecreasing_tail in Hs.
Qed.

(** The loop, entered at index [i] with [active] below [i]: the lines
    that are not after [t] are those up to the index returned. *)
Lemma findActive_loop_spec t ls : forall i active,
  nondecreasing ls -> (active < i)%Z ->
  let r := findActive_loop ls t i active in
  (r = active \/ (i <= r < i + Z.of_nat (length ls))%Z)
  /\ forall j a, nth_error ls j = Some a ->
       ((time a <=? t)%float = true <-> (i + Z.of_nat j <= r)%Z).
Proof.
  induction ls as [|l ls IH]; intros i active Hs Hact; cbn [findActive_loop].
  - split; [now left|]. intros [|j] a; discriminate.
  - destruct (time l <=? t)%float eqn:Hl.
    + destruct (IH (i + 1)%Z i (nondecreasing_tail _ _ Hs) ltac:(lia))
        as [Hr Hj].
      cbn zeta in Hr, Hj. cbn [length]. split; [right; lia|].
      intros [|j] a; cbn [nth_error].
      * intros [= <-]. split; [lia|auto].
      * intros Ha. rewrite (Hj j a Ha). lia.
    + split; [now left|]. intros j a Ha.
      assert ((time a <=? t)%float = false) as Hf.
      { destruct j as [|j]; cbn [nth_error] in Ha.
        - now injection Ha as <-.
        - destruct (time a <=? t)%float eqn:Hat; [|reflexivity].
          apply nth_error_In in Ha.
          pose proof (nondecreasing_head ls l a Hs Ha) as Hla.
          rewrite (leb_trans _ _ _ Hla Hat) in Hl. discriminate. }
      rewrite Hf. split; [discriminate|lia].
Qed.

(** C6: on lines whose times are non-decreasing, [findActiveLRCIndex]
    returns the index of the last line that is not after [t]: the lines
    not after [t] are exactly those at the indexes up to the result.
    The result is -1 on the empty list and when [t] is before the first
    line; on lines at 0, 5 and 10 seconds it is 1 for t = 7, 0 for t = 4
    and -1 for t = -1. *)
Theorem findActiveLRCIndex_last (ls : list TimedLyricLine) (t : number) :
  nondecreasing ls ->
  (-1 <= findActiveLRCIndex ls t < Z.of_nat (length ls))%Z
  /\ (forall j a, nth_error ls j = Some a ->
        ((time a <=? t)%float = true
         <-> (Z.of_nat j <= findActiveLRCIndex ls t)%Z))
  /\ (ls = [] -> findActiveLRCIndex ls t = (-1)%Z)
  /\ (forall a rest, ls = a :: rest -> (t <? time a)%float = true ->
        findActiveLRCIndex ls t = (-1)%Z)
  /\ (forall x y z,
        let ex := [ {| time := 0%float; text := x |};
                    {| time := 5%float; text := y |};
                    {| time := 10%float; text := z |} ] in
        findActiveLRCIndex ex 7%float = 1%Z
        /\ findActiveLRCIndex ex 4%float = 0%Z
        /\ findActiveLRCIndex ex (-1)%float = (-1)%Z).
Proof.
  intros Hs.
  assert (forall j a, nth_error ls j = Some a ->
            ((time a <=? t)%float = true
             <-> (Z.of_nat j <= findActiveLRCIndex ls t)%Z)) as Hall.
  { unfold findActiveLRCIndex. destruct ls as [|l ls'] eqn:E.
    - intros [|j] a; discriminate.
    - rewrite <- E in *. cbn [length Nat.eqb].
      replace (length ls =? 0) with false by (now subst).
      destruct (findActive_loop_spec t ls 0%Z (-1)%Z Hs ltac:(lia))
        as [_ Hj]. exact Hj. }
  split; [|split; [exact Hall|split; [|split]]].
  - unfold findActiveLRCIndex. destruct ls as [|l ls'] eqn:E; [cbn; lia|].
    rewrite <- E in *. replace (length ls =? 0) with false by (now subst).
    destruct (findActive_loop_spec t ls 0%Z (-1)%Z Hs ltac:(lia))
      as [Hr _]. cbn zeta in Hr. lia.
  - now intros ->.
  - intros a rest -> Hlt. unfold findActiveLRCIndex.
    cbn [length Nat.eqb findActive_loop].
    now rewrite (ltb_not_leb _ _ Hlt).
  - intros x y z. cbn zeta. repeat split; vm_compute; reflexivity.
Qed.

Lemma findActiveLRCIndex_last_witness :
  nondecreasing three_lines
  /\ (-1 <= findActiveLRCIndex three_lines 7%float < 3)%Z.
Proof.
  assert (nondecreasing three_lines) as H.
  { intros i a b Ha Hb.
    destruct i as [|[|[|i]]]; cbn [nth_error three_lines] in Ha, Hb;
      try discriminate; injection Ha as <-; injection Hb as <-;
      vm_compute; reflexivity. }
  split; [exact H|].
  exact (proj1 (findActiveLRCIndex_last three_lines 7%float H)).
Defined.

End ActiveLineProofs.


Module LrcToPlainProofs.
Import JS Regex Lyrics LyricsSpec JSFacts RegexFacts LrcFacts LrcProofs.

(** One iteration of [lrcToPlain], by the kind of the source line. *)
Lemma lrcToPlain_step_stamped result prevTime raw :
  lrcToPlain_step (result, prevTime) raw =
    match stamped raw with
    | Some (t, []) => (result, prevTime)
    | Some (t, x) =>
        ((if (0 <? length result) && (6 <? t - prevTime)%float
          then result ++ [[]] else result) ++ [x], t)
    | None => (result ++ [raw], prevTime)
    end.
Proof.
  unfold lrcToPlain_step, stamped.
  pose proof (exec_LRC raw) as H. pose proof (lrc_time_seconds raw) as T.
  destruct (exec LRC_PATTERN raw) as [m|]; rewrite H; [|reflexivity].
  rewrite (T m eq_refl). now destruct (trim (capture 4 m)).
Qed.

Lemma lrcToPlain_fold_app ls : forall result prevTime,
  exists out,
    fst (fold_left lrcToPlain_step ls (result, prevTime)) = result ++ out.
Proof.
  induction ls as [|raw ls IH]; intros result prevTime; cbn [fold_left].
  - exists []. now rewrite app_nil_r.
  - rewrite lrcToPlain_step_stamped.
    destruct (stamped raw) as [[t [|c x]]|].
    + apply IH.
    + destruct (IH ((if (0 <? length result) && (6 <? t - prevTime)%float
                     then result ++ [[]] else result) ++ [c :: x]) t)
        as [out E].
      destruct (_ && _); eexists; (etransitivity; [exact E|]);
        rewrite <- ?app_assoc; reflexivity.
    + destruct (IH (result ++ [raw]) prevTime) as [out E].
      eexists. etransitivity; [exact E|]. rewrite <- app_assoc. reflexivity.
Qed.

Lemma lrcToPlain_fold_skipped mid : forall st,
  Forall (fun raw => exists t, stamped raw = Some (t, [])) mid ->
  fold_left lrcToPlain_step mid st = st.
Proof.
  induction mid as [|raw mid IH]; intros [result prevTime] H; [reflexivity|].
  inversion H as [|? ? [t Ht] Hmid]; subst. cbn [fold_left].
  rewrite lrcToPlain_step_stamped, Ht. now apply IH.
Qed.

(** Between two timed lines that are emitted one after the other (the
    timed lines between them, if any, have an empty text) [lrcToPlain]
    puts one blank line when the test [time - prevTime > 6] of the code
    holds of their times, and none otherwise. *)
Lemma lrcToPlain_gap_rule pre l1 mid l2 post t1 x1 t2 x2 :
  stamped l1 = Some (t1, x1) -> x1 <> [] ->
  Forall (fun raw => exists t, stamped raw = Some (t, [])) mid ->
  stamped l2 = Some (t2, x2) -> x2 <> [] ->
  exists before after,
    fst (fold_left lrcToPlain_step (pre ++ [l1]) ([], 0%float))
      = before ++ [x1]
    /\ fst (fold_left lrcToPlain_step (pre ++ l1 :: mid ++ l2 :: post)
              ([], 0%float))
       = before ++ [x1]
           ++ (if (6 <? t2 - t1)%float then [[]] else [])
           ++ [x2] ++ after.
Proof.
  intros H1 Hx1 Hmid H2 Hx2.
  rewrite !fold_left_app. cbn [fold_left].
  destruct (fold_left lrcToPlain_step pre ([], 0%float)) as [r0 p0].
  rewrite lrcToPlain_step_stamped, H1.
  destruct x1 as [|c1 x1]; [contradiction|].
  set (before := if (0 <? length r0) && (6 <? t1 - p0)%float
                 then r0 ++ [[]] else r0).
  exists before.
  rewrite fold_left_app, (lrcToPlain_fold_skipped mid) by assumption.
  cbn [fold_left].
  rewrite lrcToPlain_step_stamped, H2.
  destruct x2 as [|c2 x2]; [contradiction|].
  match goal with
  | |- context [0 <? length ?l] =>
      assert ((0 <? length l) = true) as ->
        by (rewrite length_app; cbn [length]; apply Nat.ltb_lt; lia)
  end.
  cbn [andb].
  match goal with
  | |- context [fold_left _ post (?r, ?p)] =>
      destruct (lrcToPlain_fold_app post r p) as [after E]
  end.
  exists after. split; [reflexivity|]. etransitivity; [exact E|].
  destruct (6 <? t2 - t1)%float; rewrite <- ?app_assoc; reflexivity.
Qed.

(** C8: two timed lines whose stamps are exactly 6 seconds apart,
    00:02.05 and 00:08.05: the difference of their times as the code
    computes it is above 6, and [lrcToPlain] puts a blank line between
    them. *)
Theorem lrcToPlain_six_seconds_apart :
  lrcToPlain (join LF [js "[00:02.05]a"; js "[00:08.05]b"])
    = join LF [js "a"; js ""; js "b"]
  /\ stamped (js "[00:02.05]a") = Some (seconds_of (js "00") (js "02") (js "05"), js "a")
  /\ stamped (js "[00:08.05]b") = Some (seconds_of (js "00") (js "08") (js "05"), js "b")
  /\ (6 <? seconds_of (js "00") (js "08") (js "05")
           - seconds_of (js "00") (js "02") (js "05"))%float = true.
Proof. repeat split; vm_compute; reflexivity. Qed.

End LrcToPlainProofs.


(* ===================================================================== *)
(** ** More on [parseLyrics] *)
(* ===================================================================== *)

Module ParseLyricsMore.
Import JS Regex Lyrics LyricsSpec LyricsNotions.
Import JSFacts RegexFacts TagFacts ParseLyricsProofs.

Lemma emit_nonempty tag acc :
  tag <> [] \/ acc <> [] -> emit tag acc = [(tag, acc)].
Proof. destruct tag, acc; intros [H|H]; try contradiction; reflexivity. Qed.

Lemma tag_name_nonempty line name : tag_name line = Some name -> name <> [].
Proof. intros H. now apply tag_name_spec in H as (_ & H & _). Qed.

(** With a pending section that has a tag or a line, the scan emits
    one section for it and one for every tag line left. *)
Lemma scan_pending_length ls : forall tag acc,
  tag <> [] \/ acc <> [] ->
  length (scan tag acc ls) = S (length (List.filter is_tag_line ls)).
Proof.
  induction ls as [|l ls IH]; intros tag acc Hp; cbn [scan List.filter].
  - now rewrite emit_nonempty.
  - destruct (tag_name l) as [name|] eqn:E.
    + assert (is_tag_line l = true) as -> by (unfold is_tag_line; now rewrite E).
      rewrite emit_nonempty by assumption. cbn [app length].
      rewrite IH; [reflexivity|]. left. eapply tag_name_nonempty; eauto.
    + assert (is_tag_line l = false) as -> by (unfold is_tag_line; now rewrite E).
      apply IH. right. now destruct acc.
Qed.

Lemma numbered_length_eq n a : length (numbered n a) = length a.
Proof.
  revert n. induction a as [|[t ls] a IH]; intros n; simpl; auto.
Qed.

Lemma parseLyrics_length lyrics :
  length (parseLyrics lyrics) =
    length (List.filter is_tag_line (split LF lyrics))
    + match split LF lyrics with
      | l :: _ => if is_tag_line l then 0 else 1
      | [] => 0
      end.
Proof.
  rewrite parseLyrics_scan, numbered_length_eq.
  destruct (split_cons LF lyrics) as (l & ls & ->).
  cbn [scan List.filter].
  destruct (tag_name l) as [name|] eqn:E.
  - assert (is_tag_line l = true) as -> by (unfold is_tag_line; now rewrite E).
    cbn [emit app length]. rewrite scan_pending_length; [lia|].
    left. eapply tag_name_nonempty; eauto.
  - assert (is_tag_line l = false) as -> by (unfold is_tag_line; now rewrite E).
    rewrite scan_pending_length; [lia|]. now right.
Qed.

Lemma parseLyrics_nonempty lyrics : parseLyrics lyrics <> [].
Proof.
  pose proof (parseLyrics_length lyrics) as Hlen.
  intros H. rewrite H in Hlen. cbn [length] in Hlen.
  destruct (split_cons LF lyrics) as (l & ls & E). rewrite E in Hlen.
  cbn [List.filter] in Hlen. destruct (is_tag_line l); cbn [length] in Hlen; lia.
Qed.

(** X1: [parseLyrics] returns one section for every tag line of its
    input, and one more, for the lines before the first tag line, when
    the first line is not a tag line; so it never returns an empty
    list, not even on the empty string. *)
Theorem parseLyrics_count lyrics :
  length (parseLyrics lyrics) =
    length (List.filter is_tag_line (split LF lyrics))
    + match split LF lyrics with
      | l :: _ => if is_tag_line l then 0 else 1
      | [] => 0
      end
  /\ parseLyrics lyrics <> [].
Proof.
  split; [apply parseLyrics_length|apply parseLyrics_nonempty].
Qed.

(** The tags and lines the scan emits: every tag is the pending one or
    the name of a tag line, and only the first section can have the
    pending one. *)
Lemma scan_shape ls : forall tag acc,
  Forall (fun l => tag_name l = None) acc ->
  exists first rest,
    scan tag acc ls = first ++ rest
    /\ (first = []
        \/ exists body, first = [(tag, body)]
             /\ Forall (fun l => tag_name l = None) body
             /\ (tag = [] -> body <> []))
    /\ Forall (fun p => fst p <> [] /\ forallb is_dot (fst p) = true
                        /\ Forall (fun l => tag_name l = None) (snd p))
         rest.
Proof.
  induction ls as [|l ls IH]; intros tag acc Hacc; cbn [scan].
  - exists (emit tag acc), []. rewrite app_nil_r. split; [reflexivity|].
    split; [|constructor].
    destruct tag as [|c tag], acc as [|a acc]; cbn [emit]; auto;
      right; eexists; (split; [reflexivity|]); split; auto; discriminate.
  - destruct (tag_name l) as [name|] eqn:E.
    + destruct (IH name [] ltac:(constructor)) as (f & r & Hs & Hf & Hr).
      exists (emit tag acc), (scan name [] ls). split; [reflexivity|]. split.
      * destruct tag as [|c tag], acc as [|a acc]; cbn [emit]; auto;
          right; eexists; (split; [reflexivity|]); split; auto;
          discriminate.
      * rewrite Hs. apply Forall_app. split; [|exact Hr].
        destruct Hf as [->|(body & -> & Hb & _)]; constructor; [|constructor].
        cbn [fst snd]. apply tag_name_spec in E as (_ & Hn & Hd). auto.
    + destruct (IH tag (acc ++ [l])) as (f & r & Hs & Hf & Hr).
      { apply Forall_app. split; [assumption|]. now constructor. }
      exists f, r. auto.
Qed.

(** X2: in the sections [parseLyrics] returns, only the first one can
    have an empty tag, and then it has at least one line; no tag holds
    a line terminator; no line kept in a section is itself a tag
    line. *)
Theorem parseLyrics_well_formed lyrics k sec :
  nth_error (parseLyrics lyrics) k = Some sec ->
  (0 < k -> tag sec <> [])
  /\ (tag sec = [] -> lines sec <> [])
  /\ forallb is_dot (tag sec) = true
  /\ Forall (fun l => is_tag_line l = false) (lines sec).
Proof.
  rewrite parseLyrics_scan.
  destruct (scan_shape (split LF lyrics) [] [] ltac:(constructor))
    as (f & r & -> & Hf & Hr).
  assert (forall n k sec, nth_error (numbered n r) k = Some sec ->
            tag sec <> [] /\ forallb is_dot (tag sec) = true
            /\ Forall (fun l => is_tag_line l = false) (lines sec)) as Hrest.
  { clear Hf. induction Hr as [|[t ls] r (Ht & Hd & Hl) Hr IH];
      intros n j s; cbn [numbered].
    - now destruct j.
    - destruct j as [|j]; cbn [nth_error].
      + intros [= <-]. cbn [tag lines fst snd] in *. repeat split; auto.
        eapply List.Forall_impl; [|exact Hl]. intros l Hn. unfold is_tag_line.
        now rewrite Hn.
      + apply IH. }
  destruct Hf as [->|(body & -> & Hb & Hne)]; cbn [app numbered].
  - intros H. destruct (Hrest _ _ _ H) as (Ht & Hd & Hl).
    repeat split; auto; try (intros; contradiction).
  - destruct k as [|k]; cbn [nth_error].
    + intros [= <-]. cbn [tag lines]. repeat split; auto; try lia.
      eapply List.Forall_impl; [|exact Hb]. intros l Hn. unfold is_tag_line.
      now rewrite Hn.
    + intros H. destruct (Hrest _ _ _ H) as (Ht & Hd & Hl).
      repeat split; auto; try (intros; contradiction).
Qed.

Lemma parseLyrics_well_formed_witness :
  nth_error (parseLyrics (join LF [js "[A]"; js "x"; js "[B]"])) 1
    = Some {| tag := js "B"; lines := []; index := 1 |}
  /\ js "B" <> [].
Proof.
  split; [vm_compute; reflexivity|].
  refine (proj1 (parseLyrics_well_formed
                   (join LF [js "[A]"; js "x"; js "[B]"]) 1
                   {| tag := js "B"; lines := []; index := 1 |} _) _).
  - vm_compute. reflexivity.
  - lia.
Defined.

End ParseLyricsMore.


(* ===================================================================== *)
(** ** More on the lines of a text, [parseLRC] and [lrcToPlain] *)
(* ===================================================================== *)

Module TrimFacts.
Import JS.

Lemma trimStart_head s :
  match trimStart s with c :: _ => is_space c = false | [] => True end.
Proof.
  induction s as [|c s IH]; cbn [trimStart]; [exact I|].
  destruct (is_space c) eqn:E; [exact IH|exact E].
Qed.

Lemma trimStart_fixed s :
  match s with c :: _ => is_space c = false | [] => True end ->
  trimStart s = s.
Proof. destruct s as [|c s]; cbn [trimStart]; [reflexivity|]. now intros ->. Qed.

Lemma trimStart_snoc l c :
  trimStart (l ++ [c]) =
    if forallb is_space l then (if is_space c then [] else [c])
    else trimStart l ++ [c].
Proof.
  induction l as [|x l IH]; cbn [app trimStart forallb]; [reflexivity|].
  destruct (is_space x); [exact IH|reflexivity].
Qed.

Lemma forallb_rev {A} (p : A -> bool) l : forallb p (rev l) = forallb p l.
Proof.
  induction l as [|x l IH]; [reflexivity|].
  cbn [rev forallb]. rewrite forallb_app, IH. cbn [forallb].
  now rewrite andb_true_r, andb_comm.
Qed.

Lemma trimEnd_cons c s :
  trimEnd (c :: s) =
    if forallb is_space s then (if is_space c then [] else [c])
    else c :: trimEnd s.
Proof.
  unfold trimEnd. cbn [rev]. rewrite trimStart_snoc, forallb_rev.
  destruct (forallb is_space s); [now destruct (is_space c)|].
  now rewrite rev_app_distr.
Qed.

Lemma trimEnd_idempotent s : trimEnd (trimEnd s) = trimEnd s.
Proof.
  unfold trimEnd. rewrite rev_involutive. f_equal.
  apply trimStart_fixed, trimStart_head.
Qed.

Lemma trimEnd_head s :
  match s with c :: _ => is_space c = false | [] => True end ->
  match trimEnd s with c :: _ => is_space c = false | [] => True end.
Proof.
  destruct s as [|c s]; [intros _; exact I|]. intros H.
  rewrite trimEnd_cons, H. now destruct (forallb is_space s).
Qed.

(** Trimming a trimmed string changes nothing. *)
Lemma trim_idempotent s : trim (trim s) = trim s.
Proof.
  unfold trim.
  rewrite (trimStart_fixed (trimEnd (trimStart s)))
    by apply trimEnd_head, trimStart_head.
  apply trimEnd_idempotent.
Qed.

End TrimFacts.

Module LinesFacts.
Import JS Regex Lyrics LyricsSpec LyricsNotions.
Import JSFacts RegexFacts TagFacts LrcFacts LrcProofs.

(** The lines of two texts joined by a line feed are the lines of the
    one and the lines of the other. *)
Lemma split_app a b :
  split LF (a ++ LF :: b) = split LF a ++ split LF b.
Proof.
  induction a as [|c a IH]; cbn [app split].
  - now rewrite N.eqb_refl.
  - destruct (c =? LF)%N; rewrite IH; [reflexivity|].
    now destruct (split_cons LF a) as (l & ls & ->).
Qed.

Lemma is_dot_CR : is_dot CR = false.
Proof. reflexivity. Qed.

(** A line that ends in a carriage return is not a tag line. *)
Lemma tag_name_cr raw : cr_terminated raw -> tag_name raw = None.
Proof.
  intros [->|[body ->]]; [reflexivity|].
  destruct (tag_name (body ++ [CR])) as [name|] eqn:E; [|reflexivity].
  apply tag_name_spec in E as (E & _).
  change (body ++ [CR] = (ch "[" :: name) ++ [ch "]"]) in E.
  apply app_inj_tail in E as [_ E]. discriminate.
Qed.

(** Nor is it a time-coded line. *)
Lemma lrc_fields_cr raw : cr_terminated raw -> lrc_fields raw = None.
Proof.
  intros [->|[body ->]]; [reflexivity|].
  destruct (lrc_fields (body ++ [CR])) as [[[[mm ss] ff] txt]|] eqn:E;
    [|reflexivity].
  apply lrc_fields_digits in E as (E & _ & _ & _ & _ & Hd).
  apply (f_equal (@rev char)) in E. rewrite rev_unit in E.
  induction txt as [|z txt' _] using rev_ind.
  - repeat (cbn [rev app] in E; rewrite ?rev_app_distr, <- ?app_assoc in E).
    discriminate.
  - rewrite forallb_app in Hd. cbn [forallb] in Hd.
    repeat (cbn [rev app] in E; rewrite ?rev_app_distr, <- ?app_assoc in E).
    injection E as <- _. rewrite is_dot_CR, andb_false_r in Hd.
    discriminate.
Qed.

End LinesFacts.

Module LyricsEdges.
Import JS Regex Lyrics LyricsSpec LyricsNotions.
Import JSFacts RegexFacts TagFacts ParseLyricsProofs LrcFacts LrcProofs.
Import LrcToPlainProofs TrimFacts LinesFacts.

Lemma scan_untagged ls : forall acc,
  Forall (fun l => is_tag_line l = false) ls -> acc ++ ls <> [] ->
  scan [] acc ls = [([], acc ++ ls)].
Proof.
  induction ls as [|l ls IH]; intros acc Hls Hne; cbn [scan].
  - rewrite app_nil_r in *. now destruct acc.
  - inversion Hls as [|? ? Hl Hls']; subst. unfold is_tag_line in Hl.
    destruct (tag_name l); [discriminate|].
    rewrite IH by (auto; now destruct acc).
    now rewrite <- app_assoc.
Qed.

(** X3: a text without tag lines gives one section, untagged, that
    holds every line of the text. *)
Theorem parseLyrics_untagged lyrics :
  Forall (fun l => is_tag_line l = false) (split LF lyrics) ->
  parseLyrics lyrics =
    [ {| tag := []; lines := split LF lyrics; index := 0 |} ].
Proof.
  intros H. rewrite parseLyrics_scan, scan_untagged; [reflexivity|exact H|].
  now destruct (split_cons LF lyrics) as (l & ls & ->).
Qed.

Lemma parseLyrics_untagged_witness :
  Forall (fun l => is_tag_line l = false)
         (split LF (join LF [js "la"; js "la la"]))
  /\ parseLyrics (join LF [js "la"; js "la la"]) =
       [ {| tag := [];
            lines := split LF (join LF [js "la"; js "la la"]);
            index := 0 |} ].
Proof.
  assert (Forall (fun l => is_tag_line l = false)
                 (split LF (join LF [js "la"; js "la la"]))) as H
    by (repeat constructor).
  split; [exact H|]. exact (parseLyrics_untagged _ H).
Defined.

Lemma omap_lrc_line_untimed ls :
  Forall (fun raw => stamped raw = None) ls -> omap lrc_line ls = [].
Proof.
  induction 1 as [|raw ls Hraw _ IH]; [reflexivity|].
  cbn [omap list_omap]. unfold lrc_line. unfold stamped in Hraw.
  destruct (lrc_fields raw) as [[[[mm ss] ff] txt]|]; [discriminate|].
  exact IH.
Qed.

Lemma lrcToPlain_fold_untimed ls : forall result prevTime,
  Forall (fun raw => stamped raw = None) ls ->
  fold_left lrcToPlain_step ls (result, prevTime)
    = (result ++ ls, prevTime).
Proof.
  induction ls as [|raw ls IH]; intros result prevTime H; cbn [fold_left].
  - now rewrite app_nil_r.
  - inversion H as [|? ? Hraw Hls]; subst.
    rewrite lrcToPlain_step_stamped, Hraw, IH by assumption.
    now rewrite <- app_assoc.
Qed.

(** X4: on a text none of whose lines is time-coded, [parseLRC]
    returns no line and [lrcToPlain] returns the text as it is. *)
Theorem untimed_text lrc :
  Forall (fun raw => stamped raw = None) (split LF lrc) ->
  parseLRC lrc = [] /\ lrcToPlain lrc = lrc.
Proof.
  intros H. split.
  - unfold parseLRC. rewrite parseLRC_fold. now apply omap_lrc_line_untimed.
  - unfold lrcToPlain. rewrite lrcToPlain_fold_untimed by assumption.
    cbn [fst app]. apply join_split.
Qed.

Lemma untimed_text_witness :
  Forall (fun raw => stamped raw = None)
         (split LF (join LF [js "[Verse]"; js "la [00:01.00]"]))
  /\ lrcToPlain (join LF [js "[Verse]"; js "la [00:01.00]"])
     = join LF [js "[Verse]"; js "la [00:01.00]"].
Proof.
  assert (Forall (fun raw => stamped raw = None)
                 (split LF (join LF [js "[Verse]"; js "la [00:01.00]"])))
    as H by (repeat constructor).
  split; [exact H|]. exact (proj2 (untimed_text _ H)).
Defined.

(** X5: a line that ends in a carriage return is neither a tag line
    nor a time-coded line.  So on a text with CRLF line ends
    [parseLyrics] sees no tag, [parseLRC] returns no line and
    [lrcToPlain] strips no time stamp. *)
Theorem crlf_text s :
  Forall cr_terminated (split LF s) ->
  parseLyrics s = [ {| tag := []; lines := split LF s; index := 0 |} ]
  /\ parseLRC s = []
  /\ lrcToPlain s = s.
Proof.
  intros H. split.
  - rewrite parseLyrics_scan, scan_untagged; [reflexivity| |].
    + eapply List.Forall_impl; [|exact H]. intros raw Hraw.
      unfold is_tag_line. now rewrite tag_name_cr.
    + now destruct (split_cons LF s) as (l & ls & ->).
  - assert (Forall (fun raw => stamped raw = None) (split LF s)) as H'.
    { eapply List.Forall_impl; [|exact H]. intros raw Hraw.
      unfold stamped. now rewrite lrc_fields_cr. }
    split.
    + unfold parseLRC. rewrite parseLRC_fold.
      now apply omap_lrc_line_untimed.
    + unfold lrcToPlain. rewrite lrcToPlain_fold_untimed by assumption.
      cbn [fst app]. apply join_split.
Qed.

Lemma crlf_text_witness :
  Forall cr_terminated
         (split LF (js "[00:01.50]Hello" ++ [CR; LF]))
  /\ parseLRC (js "[00:01.50]Hello" ++ [CR; LF]) = [].
Proof.
  assert (Forall cr_terminated
                 (split LF (js "[00:01.50]Hello" ++ [CR; LF]))) as H.
  { apply List.Forall_cons.
    - right. exists (js "[00:01.50]Hello"). reflexivity.
    - apply List.Forall_cons; [now left|apply List.Forall_nil]. }
  split; [exact H|]. exact (proj1 (proj2 (crlf_text _ H))).
Defined.

Lemma lrc_line_text raw l :
  lrc_line raw = Some l ->
  text l <> [] /\ trim (text l) = text l
  /\ test SECTION_PATTERN (text l) = false.
Proof.
  unfold lrc_line.
  destruct (lrc_fields raw) as [[[[mm ss] ff] txt]|]; [|discriminate].
  destruct (truthy (trim txt)) eqn:Ht; [|discriminate].
  destruct (test SECTION_PATTERN (trim txt)) eqn:Hm; [discriminate|].
  cbn [andb negb]. intros [= <-]. cbn [text].
  repeat split; [|apply trim_idempotent|exact Hm].
  now destruct (trim txt).
Qed.

(** X6: the text of every line that [parseLRC] returns is not empty,
    has no white space at either end, and is not a structural
    marker. *)
Theorem parseLRC_texts lrc :
  Forall (fun l => text l <> [] /\ trim (text l) = text l
                   /\ test SECTION_PATTERN (text l) = false)
         (parseLRC lrc).
Proof.
  unfold parseLRC. rewrite parseLRC_fold. cbn [app].
  induction (split LF lrc) as [|raw ls IH]; cbn [omap list_omap];
    [constructor|].
  destruct (lrc_line raw) as [l|] eqn:E; [|exact IH].
  constructor; [|exact IH]. eapply lrc_line_text; eauto.
Qed.

(** X7: [parseLRC] reads each line on its own: the lines of two texts
    joined by a line feed are the lines of the one followed by the
    lines of the other. *)
Theorem parseLRC_app a b :
  parseLRC (a ++ LF :: b) = parseLRC a ++ parseLRC b.
Proof.
  unfold parseLRC. rewrite !parseLRC_fold, split_app. cbn [app].
  apply omap_app.
Qed.

End LyricsEdges.


(* ===================================================================== *)
(** ** More on [findActiveLRCIndex] *)
(* ===================================================================== *)

Module ActiveLineMore.
Import JS Lyrics LyricsSpec LyricsNotions FloatFacts.

Lemma findActive_loop_passing t ls : forall i active,
  findActive_loop ls t i active =
    match passing t ls with
    | O => active
    | S n => (i + Z.of_nat n)%Z
    end.
Proof.
  induction ls as [|l ls IH]; intros i active;
    cbn [findActive_loop passing]; [reflexivity|].
  destruct (time l <=? t)%float; [|reflexivity].
  rewrite IH. destruct (passing t ls); lia.
Qed.

Lemma findActive_passing ls t :
  findActiveLRCIndex ls t = (Z.of_nat (passing t ls) - 1)%Z.
Proof.
  unfold findActiveLRCIndex. destruct ls as [|l ls]; [reflexivity|].
  cbn [length Nat.eqb]. rewrite findActive_loop_passing.
  destruct (passing t (l :: ls)); lia.
Qed.

Lemma passing_le t ls : passing t ls <= length ls.
Proof.
  induction ls as [|l ls IH]; cbn [passing length]; [lia|].
  destruct (time l <=? t)%float; lia.
Qed.

Lemma passing_firstn t ls :
  Forall (fun a => (time a <=? t)%float = true) (firstn (passing t ls) ls).
Proof.
  induction ls as [|l ls IH]; cbn [passing]; [constructor|].
  destruct (time l <=? t)%float eqn:E; cbn [firstn]; now constructor.
Qed.

Lemma passing_next t ls :
  match nth_error ls (passing t ls) with
  | Some a => (time a <=? t)%float = false
  | None => True
  end.
Proof.
  induction ls as [|l ls IH]; cbn [passing]; [exact I|].
  destruct (time l <=? t)%float eqn:E; cbn [nth_error]; assumption.
Qed.

(** X8: whatever the order of the lines, [findActiveLRCIndex] returns
    -1 or an index of the list; every line up to that index is not
    after [t]; and the line that follows it, if there is one, is not
    at or before [t]. *)
Theorem findActiveLRCIndex_prefix (ls : list TimedLyricLine) (t : number) :
  (-1 <= findActiveLRCIndex ls t < Z.of_nat (length ls))%Z
  /\ Forall (fun a => (time a <=? t)%float = true)
       (firstn (Z.to_nat (findActiveLRCIndex ls t + 1)) ls)
  /\ match nth_error ls (Z.to_nat (findActiveLRCIndex ls t + 1)) with
     | Some a => (time a <=? t)%float = false
     | None => True
     end.
Proof.
  rewrite findActive_passing.
  replace (Z.to_nat (Z.of_nat (passing t ls) - 1 + 1)) with (passing t ls)
    by lia.
  pose proof (passing_le t ls). split; [lia|]. split.
  - apply passing_firstn.
  - apply passing_next.
Qed.

Lemma passing_mono t1 t2 ls :
  (t1 <=? t2)%float = true -> passing t1 ls <= passing t2 ls.
Proof.
  intros Ht. induction ls as [|l ls IH]; cbn [passing]; [lia|].
  destruct (time l <=? t1)%float eqn:E; [|lia].
  pose proof (leb_trans _ _ _ E Ht) as E2. rewrite E2. lia.
Qed.

(** X9: the active line never moves back when the playback time moves
    on, whatever the order of the lines. *)
Theorem findActiveLRCIndex_monotone (ls : list TimedLyricLine)
    (t1 t2 : number) :
  (t1 <=? t2)%float = true ->
  (findActiveLRCIndex ls t1 <= findActiveLRCIndex ls t2)%Z.
Proof.
  intros Ht. rewrite !findActive_passing.
  pose proof (passing_mono t1 t2 ls Ht). lia.
Qed.

Lemma findActiveLRCIndex_monotone_witness :
  (4 <=? 7)%float = true
  /\ (findActiveLRCIndex three_lines 4%float
      <= findActiveLRCIndex three_lines 7%float)%Z.
Proof.
  split; [reflexivity|].
  apply (findActiveLRCIndex_monotone three_lines 4%float 7%float).
  reflexivity.
Defined.

Lemma leb_nan_false (x t : number) :
  is_nan t = true \/ is_nan x = true -> (x <=? t)%float = false.
Proof.
  unfold is_nan. rewrite FloatAxioms.leb_spec, !FloatAxioms.eqb_spec. unfold SFleb, SFeqb.
  destruct (Prim2SF x) as [[]|[]| |[] mx ex],
           (Prim2SF t) as [[]|[]| |[] mt et];
    cbn; rewrite ?Z.compare_refl, ?Pos.compare_cont_refl; cbn;
    intros [H|H]; try discriminate; reflexivity.
Qed.

(** X10: when the playback time is not a number, or the time of the
    first line is not, no line is active. *)
Theorem findActiveLRCIndex_nan (ls : list TimedLyricLine) (t : number) :
  is_nan t = true
  \/ (exists a rest, ls = a :: rest /\ is_nan (time a) = true) ->
  findActiveLRCIndex ls t = (-1)%Z.
Proof.
  intros H. rewrite findActive_passing.
  assert (passing t ls = 0) as ->; [|reflexivity].
  destruct ls as [|l ls]; [reflexivity|]. cbn [passing].
  rewrite leb_nan_false; [reflexivity|].
  destruct H as [H|(a & rest & [= -> ->] & H)]; auto.
Qed.

Lemma findActiveLRCIndex_nan_witness :
  is_nan nan = true /\ findActiveLRCIndex three_lines nan = (-1)%Z.
Proof.
  split; [reflexivity|].
  apply (findActiveLRCIndex_nan three_lines nan). left. reflexivity.
Defined.

End ActiveLineMore.


(* ===================================================================== *)
(** ** The structural markers, whatever the case *)
(* ===================================================================== *)

Module CaselessFacts.
Import JS Regex Lyrics LyricsSpec LyricsNotions.

Lemma is_Some_match {A} (a b : option A) :
  is_Some (match a with Some x => Some x | None => b end)
  <-> is_Some a \/ is_Some b.
Proof.
  destruct a as [x|]; split.
  - intros _. left. eauto.
  - intros _. eauto.
  - intros H. now right.
  - intros [[x H]|H]; [discriminate|exact H].
Qed.

Lemma repeat_caseless body k k' :
  (forall i s c c' K K', cont_alike K K' ->
     is_Some (body i s c K)
     <-> is_Some (body i (List.map canonicalize s) c' K')) ->
  cont_alike k k' ->
  forall n, cont_alike (repeat body k n) (repeat body k' n).
Proof.
  intros Hbody Hk. induction n as [|n IH]; intros i s c c'; cbn [repeat].
  - apply Hk.
  - rewrite !is_Some_match.
    rewrite (Hbody i s c c' _
               (fun i' s' c'0 => if i <? i' then repeat body k' n i' s' c'0
                                 else None)).
    + now rewrite (Hk i s c c').
    + intros i' s' c1 c1'. destruct (i <? i'); [apply IH|].
      split; intros [x H]; discriminate.
Qed.

(** A pattern whose classes ignore the case matches a string when it
    matches its canonical form. *)
Lemma run_caseless r : caseless r ->
  forall i s c c' k k', cont_alike k k' ->
    is_Some (run r i s c k)
    <-> is_Some (run r i (List.map canonicalize s) c' k').
Proof.
  induction r as [| | |p|r1 IH1 r2 IH2|r1 IH1 r2 IH2|r IH|n r IH];
    intros Hr i s c c' k k' Hk; cbn [run caseless] in *.
  - apply Hk.
  - destruct (i =? 0); [apply Hk|]. split; intros [x H]; discriminate.
  - destruct s; cbn [List.map]; [apply (Hk i [] c c')|].
    split; intros [x H]; discriminate.
  - destruct s as [|x s]; cbn [List.map].
    + split; intros [y H]; discriminate.
    + rewrite Hr. destruct (p x); [apply Hk|].
      split; intros [y H]; discriminate.
  - destruct Hr as [H1 H2]. apply IH1; [exact H1|].
    intros i' s' c1 c1'. now apply IH2.
  - destruct Hr as [H1 H2]. rewrite !is_Some_match.
    now rewrite (IH1 H1 i s c c' k k' Hk), (IH2 H2 i s c c' k k' Hk).
  - rewrite length_map.
    apply (repeat_caseless (run r) k k'); [|exact Hk].
    intros. now apply IH.
  - apply IH; [exact Hr|]. intros i' s' c1 c1'. apply Hk.
Qed.

Lemma exec_from_caseless r : caseless r ->
  forall s i,
    is_Some (exec_from r i s)
    <-> is_Some (exec_from r i (List.map canonicalize s)).
Proof.
  intros Hr. induction s as [|x s IH]; intros i; cbn [exec_from List.map];
    rewrite !is_Some_match.
  - rewrite (run_caseless r Hr i [] [] [] (fun _ _ c => Some c)
               (fun _ _ c => Some c)); [reflexivity|].
    intros ? ? ? ?. split; eauto.
  - rewrite (run_caseless r Hr i (x :: s) [] [] (fun _ _ c => Some c)
               (fun _ _ c => Some c)), (IH (S i)); [reflexivity|].
    intros ? ? ? ?. split; eauto.
Qed.

Lemma test_caseless r s :
  caseless r -> test r (List.map canonicalize s) = test r s.
Proof.
  intros Hr. unfold test, exec.
  pose proof (exec_from_caseless r Hr s 0) as H.
  destruct (exec_from r 0 s) as [m|],
           (exec_from r 0 (List.map canonicalize s)) as [m'|];
    try reflexivity.
  - destruct (proj1 H ltac:(eauto)) as [? ?]. discriminate.
  - destruct (proj2 H ltac:(eauto)) as [? ?]. discriminate.
Qed.

Lemma canonicalize_cases x :
  canonicalize x = x
  \/ ((97 <= x <= 122)%N /\ canonicalize x = (x - 32)%N).
Proof.
  unfold canonicalize.
  destruct (N.leb_spec 97 x), (N.leb_spec x 122); cbn; auto.
Qed.

Lemma canonicalize_idempotent x :
  canonicalize (canonicalize x) = canonicalize x.
Proof.
  destruct (canonicalize_cases x) as [E|[Hx E]]; [congruence|].
  rewrite E. unfold canonicalize.
  destruct (N.leb_spec 97 (x - 32)); [|reflexivity].
  destruct (N.leb_spec (x - 32) 122); cbn; [lia|reflexivity].
Qed.

Lemma caseless_ChrI c : caseless (ChrI c).
Proof.
  intros x.
  change ((canonicalize (canonicalize x) =? canonicalize c)%N
          = (canonicalize x =? canonicalize c)%N).
  now rewrite canonicalize_idempotent.
Qed.

Lemma caseless_ClsI cs : caseless (ClsI cs).
Proof.
  intros x.
  change (existsb (fun c => (canonicalize (canonicalize x) =? canonicalize c)%N) cs
          = existsb (fun c => (canonicalize x =? canonicalize c)%N) cs).
  now rewrite canonicalize_idempotent.
Qed.

Lemma caseless_LitI s : caseless (LitI s).
Proof.
  unfold LitI. induction s as [|c [|c' s] IH]; cbn [seq_of caseless].
  - exact I.
  - apply caseless_ChrI.
  - split; [apply caseless_ChrI|exact IH].
Qed.

Lemma caseless_ws : caseless ws.
Proof.
  intros x. change (is_space (canonicalize x) = is_space x).
  destruct (canonicalize_cases x) as [E|[Hx E]]; rewrite E; [reflexivity|].
  unfold is_space, is_white_space, is_line_terminator.
  repeat match goal with
         | |- context [(?a =? ?b)%N] => destruct (N.eqb_spec a b); try lia
         | |- context [(?a <=? ?b)%N] => destruct (N.leb_spec a b); try lia
         end; reflexivity.
Qed.

Lemma caseless_digit : caseless digit.
Proof.
  intros x. change (is_digit (canonicalize x) = is_digit x).
  destruct (canonicalize_cases x) as [E|[Hx E]]; rewrite E; [reflexivity|].
  unfold is_digit.
  repeat match goal with
         | |- context [(?a <=? ?b)%N] => destruct (N.leb_spec a b); try lia
         end; reflexivity.
Qed.

Lemma caseless_SECTION_PATTERN : caseless SECTION_PATTERN.
Proof.
  unfold SECTION_PATTERN.
  cbn [seqs alts caseless Opt].
  repeat match goal with
         | |- _ /\ _ => split
         | |- True => exact I
         | |- caseless (LitI _) => apply caseless_LitI
         | |- caseless (ChrI _) => apply caseless_ChrI
         | |- caseless (ClsI _) => apply caseless_ClsI
         | |- caseless ws => apply caseless_ws
         | |- caseless digit => apply caseless_digit
         end.
Qed.

(** X11: whether a text is a structural marker does not depend on the
    case of its ASCII letters: a text is a marker exactly when its
    upper-cased form is one. *)
Theorem marker_caseless (s : jsstring) :
  test SECTION_PATTERN (List.map canonicalize s) = test SECTION_PATTERN s.
Proof. apply test_caseless, caseless_SECTION_PATTERN. Qed.

End CaselessFacts.


(* ===================================================================== *)
(** ** The plain text and the timed lines of one text *)
(* ===================================================================== *)

Module SplitFacts.
Import JS JSFacts.

Lemma split_plain sep g : ~ In sep g -> split sep g = [g].
Proof.
  induction g as [|c g IH]; intros H; cbn [split]; [reflexivity|].
  destruct (N.eqb_spec c sep) as [->|_]; [exfalso; apply H; now left|].
  rewrite IH; [reflexivity|]. intros F. apply H. now right.
Qed.

Lemma split_sep_app sep a b :
  ~ In sep a -> split sep (a ++ sep :: b) = a :: split sep b.
Proof.
  induction a as [|c a IH]; intros H; cbn [app split].
  - now rewrite N.eqb_refl.
  - destruct (N.eqb_spec c sep) as [->|_]; [exfalso; apply H; now left|].
    rewrite IH; [reflexivity|]. intros F. apply H. now right.
Qed.

Lemma split_no_sep sep s : Forall (fun l => ~ In sep l) (split sep s).
Proof.
  induction s as [|c s IH]; cbn [split].
  - constructor; [now intros []|constructor].
  - destruct (N.eqb_spec c sep) as [->|Hne].
    + constructor; [now intros []|exact IH].
    + destruct (split sep s) as [|l ls]; [constructor; [|constructor]|].
      * intros [F|[]]. congruence.
      * apply List.Forall_cons_iff in IH as [Hl Hls].
        constructor; [|exact Hls]. intros [F|F]; [congruence|contradiction].
Qed.

(** Joining lines that are free of the separator and splitting again
    gives the lines back. *)
Lemma split_join sep ls :
  ls <> [] -> Forall (fun l => ~ In sep l) ls ->
  split sep (join sep ls) = ls.
Proof.
  induction ls as [|l ls IH]; intros Hne H; [contradiction|].
  apply List.Forall_cons_iff in H as [Hl Hls].
  destruct ls as [|l' ls]; [now apply split_plain|].
  rewrite join_cons, split_sep_app by exact Hl.
  f_equal. apply IH; [discriminate|exact Hls].
Qed.

End SplitFacts.

Module PlainMore.
Import JS Regex Lyrics LyricsSpec LyricsNotions.
Import JSFacts LrcProofs LrcToPlainProofs SplitFacts.

Lemma trimStart_In c s : In c (trimStart s) -> In c s.
Proof.
  induction s as [|x s IH]; cbn [trimStart]; [easy|].
  destruct (is_space x); [|easy]. intros H. right. now apply IH.
Qed.

Lemma trim_In c s : In c (trim s) -> In c s.
Proof.
  unfold trim, trimEnd. intros H.
  apply in_rev, trimStart_In in H. apply in_rev in H.
  now apply trimStart_In.
Qed.

Lemma stamped_no_LF raw t x : stamped raw = Some (t, x) -> ~ In LF x.
Proof.
  unfold stamped.
  destruct (lrc_fields raw) as [[[[mm ss] ff] txt]|] eqn:F; [|discriminate].
  intros [= _ <-] H. apply trim_In in H.
  apply lrc_fields_digits in F as (_ & _ & _ & _ & _ & Hd).
  rewrite forallb_forall in Hd. now specialize (Hd _ H).
Qed.

Lemma lrc_line_stamped raw :
  lrc_line raw =
    match stamped raw with
    | Some (t, x) =>
        if truthy x && negb (test SECTION_PATTERN x)
        then Some {| time := t; text := x |} else None
    | None => None
    end.
Proof.
  unfold lrc_line, stamped.
  now destruct (lrc_fields raw) as [[[[mm ss] ff] txt]|].
Qed.

Lemma lrcToPlain_fold_lines ls : forall result prevTime,
  Forall (fun l => ~ In LF l) ls ->
  exists out,
    fst (fold_left lrcToPlain_step ls (result, prevTime)) = result ++ out
    /\ Forall (fun l => ~ In LF l) out
    /\ sublist (List.map text (omap lrc_line ls)) out.
Proof.
  induction ls as [|raw ls IH]; intros result prevTime H; cbn [fold_left].
  - exists []. rewrite app_nil_r. repeat split; constructor.
  - apply List.Forall_cons_iff in H as [Hraw Hls].
    rewrite lrcToPlain_step_stamped. cbn [omap list_omap].
    rewrite lrc_line_stamped.
    destruct (stamped raw) as [[t [|c x]]|] eqn:Es.
    + cbn [truthy andb]. now apply IH.
    + pose proof (stamped_no_LF _ _ _ Es) as Hx.
      destruct (IH ((if (0 <? length result) && (6 <? t - prevTime)%float
                     then result ++ [[]] else result) ++ [c :: x]) t Hls)
        as (out & E & Ho & Hs).
      assert (sublist
                (List.map text
                   (from_option (fun y => y :: omap lrc_line ls)
                      (omap lrc_line ls)
                      (if truthy (c :: x) && negb (test SECTION_PATTERN (c :: x))
                       then Some {| time := t; text := c :: x |} else None)))
                ((c :: x) :: out)) as Hs'.
      { destruct (truthy (c :: x) && negb (test SECTION_PATTERN (c :: x)));
          cbn [from_option List.map text]; now constructor. }
      destruct ((0 <? length result) && (6 <? t - prevTime)%float).
      * exists ([] :: (c :: x) :: out). split; [|split].
        -- rewrite E, <- !app_assoc. reflexivity.
        -- constructor; [now intros []|]. now constructor.
        -- now constructor.
      * exists ((c :: x) :: out). split; [|split].
        -- rewrite E, <- !app_assoc. reflexivity.
        -- now constructor.
        -- exact Hs'.
    + destruct (IH (result ++ [raw]) prevTime Hls) as (out & E & Ho & Hs).
      exists (raw :: out). split; [|split].
      * rewrite E, <- app_assoc. reflexivity.
      * now constructor.
      * now constructor.
Qed.

(** X26: the timed lines of a text are lines of its plain text: the
    texts of the lines [parseLRC] returns stand, in the same order,
    among the lines of what [lrcToPlain] returns (which has, besides,
    the lines without a time stamp, the structural markers and the
    blank lines at the gaps). *)
Theorem plain_keeps_timed_lines (lrc : jsstring) :
  sublist (List.map text (parseLRC lrc)) (split LF (lrcToPlain lrc)).
Proof.
  unfold parseLRC, lrcToPlain. rewrite parseLRC_fold. cbn [app].
  destruct (lrcToPlain_fold_lines (split LF lrc) [] 0%float
              (split_no_sep LF lrc)) as (out & -> & Ho & Hs).
  cbn [app]. destruct out as [|l out].
  - apply sublist_nil_r in Hs. rewrite Hs. apply sublist_nil_l.
  - rewrite split_join; [exact Hs|discriminate|exact Ho].
Qed.

End PlainMore.


(* ===================================================================== *)
(** ** The task poller *)
(* ===================================================================== *)

Module PollingFacts.
Import JS Polling.

Section WithMessages.
Variable t : jsstring -> jsstring.

Lemma when_truthy_frame x k w :
  (forall v w, intervals (k v w) = intervals w
               /\ nextHandle (k v w) = nextHandle w
               /\ fetches (k v w) = fetches w
               /\ pollIntervalRef (k v w) = pollIntervalRef w
               /\ progressMessage (k v w) = progressMessage w
               /\ timeouts (k v w) = timeouts w) ->
  intervals (when_truthy x k w) = intervals w
  /\ nextHandle (when_truthy x k w) = nextHandle w
  /\ fetches (when_truthy x k w) = fetches w
  /\ pollIntervalRef (when_truthy x k w) = pollIntervalRef w
  /\ progressMessage (when_truthy x k w) = progressMessage w
  /\ timeouts (when_truthy x k w) = timeouts w.
Proof.
  intros Hk. unfold when_truthy.
  destruct x as [v|]; [destruct (truthy v)|]; auto 10.
Qed.

(** What the callback does to the timers, by the status answered. *)
Lemma onFulfilled_timers h gen w :
  nextHandle (onFulfilled t h gen w) = nextHandle w
  /\ fetches (onFulfilled t h gen w) = fetches w
  /\ intervals (onFulfilled t h gen w) =
       (if terminal (Generation.status gen)
        then delete h (intervals w) else intervals w)
  /\ pollIntervalRef (onFulfilled t h gen w) =
       (if terminal (Generation.status gen)
        then None else pollIntervalRef w).
Proof.
  unfold onFulfilled.
  destruct (Generation.status gen); cbn [terminal]; wsimpl; auto.
  set (w1 := when_truthy (Generation.lyrics gen) _ _).
  destruct (when_truthy_frame (Generation.title gen)
              (fun v => withStore (setTitle v)) w1)
    as (-> & -> & -> & _); [intros; wsimpl; auto 10|].
  subst w1.
  destruct (when_truthy_frame (Generation.lyrics gen)
              (fun v => withStore (setLyrics v))
              (setProgressMessage
                 (or_else (Generation.progress_message gen) [])
                 (withStore
                    (setProgress (nullish (Generation.progress gen) 0%float))
                    w)))
    as (-> & -> & -> & _); [intros; wsimpl; auto 10|].
  wsimpl. auto.
Qed.

Lemma onRejected_timers h w :
  nextHandle (onRejected t h w) = nextHandle w
  /\ fetches (onRejected t h w) = fetches w
  /\ intervals (onRejected t h w) = delete h (intervals w)
  /\ pollIntervalRef (onRejected t h w) = None.
Proof. unfold onRejected. wsimpl. auto. Qed.

Lemma pollTask_timers id w :
  nextHandle (pollTask id w) = Pos.succ (nextHandle w)
  /\ fetches (pollTask id w) = fetches w
  /\ intervals (pollTask id w) =
       <[nextHandle w := {| taskId := id; period := 2000 |}]>
         (match pollIntervalRef w with
          | Some h => delete h (intervals w)
          | None => intervals w
          end)
  /\ pollIntervalRef (pollTask id w) = Some (nextHandle w).
Proof. unfold pollTask. destruct (pollIntervalRef w); wsimpl; auto. Qed.

(** An interval that is not alive, and whose handle has been given
    out, stays so. *)
Lemma dead_step h w e w' :
  (h < nextHandle w)%positive -> intervals w !! h = None ->
  step t w e = Some w' ->
  (h < nextHandle w')%positive /\ intervals w' !! h = None.
Proof.
  intros Hlt Hdead Hstep. destruct e; cbn [step] in Hstep.
  - injection Hstep as <-.
    destruct (pollTask_timers id w) as (-> & _ & -> & _).
    split; [lia|]. rewrite lookup_insert_ne by lia.
    destruct (pollIntervalRef w); [|assumption].
    rewrite lookup_delete. case_decide; auto.
  - injection Hstep as <-. unfold cancelPolling.
    destruct (pollIntervalRef w); wsimpl; auto.
    split; [assumption|]. rewrite lookup_delete. case_decide; auto.
  - destruct (intervals w !! h0); [|discriminate].
    injection Hstep as <-. wsimpl. auto.
  - destruct (fetches w !! f) as [r|]; [|discriminate].
    injection Hstep as <-.
    destruct (onFulfilled_timers (interval r) gen (settle f w))
      as (-> & _ & -> & _). wsimpl. split; [assumption|].
    destruct (terminal _); [|assumption].
    rewrite lookup_delete. case_decide; auto.
  - destruct (fetches w !! f) as [r|]; [|discriminate].
    injection Hstep as <-.
    destruct (onRejected_timers (interval r) (settle f w))
      as (-> & _ & -> & _). wsimpl. split; [assumption|].
    rewrite lookup_delete. case_decide; auto.
  - injection Hstep as <-. unfold unmount.
    destruct (pollIntervalRef w); wsimpl; auto.
    split; [assumption|]. rewrite lookup_delete. case_decide; auto.
  - injection Hstep as <-. wsimpl. auto.
Qed.

Lemma dead_stopped h w :
  (h < nextHandle w)%positive -> intervals w !! h = None ->
  stopped t h w.
Proof.
  intros Hlt Hdead es. revert w Hlt Hdead.
  induction es as [|e es IH]; intros w Hlt Hdead w' Hrun; cbn [run] in Hrun.
  - injection Hrun as Hw. subst w'. cbn [step]. now rewrite Hdead.
  - destruct (step t w e) as [w1|] eqn:E; [|discriminate].
    destruct (dead_step h w e w1 Hlt Hdead E) as [Hlt1 Hdead1].
    now apply (IH w1).
Qed.

Lemma bounded_delete_intervals h w w' :
  bounded w -> intervals w' = delete h (intervals w) ->
  fetches w' = fetches w -> nextHandle w' = nextHandle w -> bounded w'.
Proof.
  intros [Hi Hf] Ei Ef En. split.
  - intros h' iv. rewrite Ei, En. intros H.
    apply lookup_delete_Some in H as [_ H]. eauto.
  - intros f r. rewrite Ef, En. eauto.
Qed.

Lemma step_bounded w e w' :
  bounded w -> step t w e = Some w' -> bounded w'.
Proof.
  intros Hb Hstep. destruct e; cbn [step] in Hstep.
  - injection Hstep as <-. destruct Hb as [Hi Hf].
    destruct (pollTask_timers id w) as (En & Ef & Ei & _).
    split.
    + intros h iv. rewrite Ei, En. intros H.
      apply lookup_insert_Some in H as [[<- _]|[_ H]]; [lia|].
      assert (intervals w !! h = Some iv) as H'.
      { destruct (pollIntervalRef w); [|assumption].
        now apply lookup_delete_Some in H as [_ H]. }
      apply Hi in H'. lia.
    + intros f r. rewrite Ef, En. intros H. apply Hf in H. lia.
  - injection Hstep as <-. unfold cancelPolling.
    destruct (pollIntervalRef w) as [h|]; [|exact Hb].
    now apply (bounded_delete_intervals h w).
  - destruct (intervals w !! h) as [iv|] eqn:E; [|discriminate].
    injection Hstep as <-. destruct Hb as [Hi Hf]. split; wsimpl.
    + exact Hi.
    + intros f r H.
      apply lookup_insert_Some in H as [[_ <-]|[_ H]]; wsimpl; eauto.
  - destruct (fetches w !! f) as [r|]; [|discriminate].
    injection Hstep as <-. destruct Hb as [Hi Hf].
    destruct (onFulfilled_timers (interval r) gen (settle f w))
      as (En & Ef & Ei & _).
    split.
    + intros h iv. rewrite Ei, En. wsimpl. intros H. apply (Hi h iv).
      destruct (terminal _); [|assumption].
      now apply lookup_delete_Some in H as [_ H].
    + intros f' r'. rewrite Ef, En. wsimpl. intros H.
      apply lookup_delete_Some in H as [_ H]. eauto.
  - destruct (fetches w !! f) as [r|]; [|discriminate].
    injection Hstep as <-. destruct Hb as [Hi Hf].
    destruct (onRejected_timers (interval r) (settle f w))
      as (En & Ef & Ei & _).
    split.
    + intros h iv. rewrite Ei, En. wsimpl. intros H. apply (Hi h iv).
      now apply lookup_delete_Some in H as [_ H].
    + intros f' r'. rewrite Ef, En. wsimpl. intros H.
      apply lookup_delete_Some in H as [_ H]. eauto.
  - injection Hstep as <-. unfold unmount.
    destruct (pollIntervalRef w) as [h|]; [|exact Hb].
    now apply (bounded_delete_intervals h w).
  - injection Hstep as <-. exact Hb.
Qed.

Lemma run_bounded es : forall w w',
  bounded w -> run t w es = Some w' -> bounded w'.
Proof.
  induction es as [|e es IH]; intros w w' Hb Hrun; cbn [run] in Hrun.
  - now injection Hrun as <-.
  - destruct (step t w e) as [w1|] eqn:E; [|discriminate].
    eapply IH; [|exact Hrun]. eapply step_bounded; eauto.
Qed.

Lemma reachable_bounded w : reachable t w -> bounded w.
Proof.
  intros [es Hrun]. eapply run_bounded; [|exact Hrun].
  split; intros ? ?; cbn [init intervals fetches];
    rewrite lookup_empty; discriminate.
Qed.

End WithMessages.
End PollingFacts.


Module PollingProofs.
Import JS Polling PollingFacts.

Section WithMessages.
Variable t : jsstring -> jsstring.

(** C2: when a status request of a polling loop fails, the callback
    stops that loop for good (its interval is cleared and never fires
    again, so the loop sends no further request, and none is sent in
    its place), sets the generation status to failed with the
    lost-connection message, and empties the progress message. *)
Theorem fetch_failure_is_fatal (w : World) (f : positive) (r : Fetch) :
  reachable t w -> fetches w !! f = Some r ->
  exists w',
    step t w (Rejected f) = Some w'
    /\ generationStatus (store w') = st failed
    /\ errorMessage (store w') = Some (t (js "create.lostConnection"))
    /\ progressMessage w' = []
    /\ intervals w' !! interval r = None
    /\ stopped t (interval r) w'
    /\ fetches w' = delete f (fetches w).
Proof.
  intros Hreach Hf. apply reachable_bounded in Hreach as [_ Hb].
  cbn [step]. rewrite Hf. eexists. split; [reflexivity|].
  destruct (onRejected_timers t (interval r) (settle f w))
    as (En & Ef & Ei & _).
  assert (intervals (onRejected t (interval r) (settle f w))
            !! interval r = None) as Hdead
    by (rewrite Ei; apply lookup_delete_eq).
  repeat split; try reflexivity; try assumption.
  apply dead_stopped; [|assumption].
  rewrite En. wsimpl. eauto.
Qed.

(** One round of a loop that is alive: the tick and its answer. *)
Lemma round h iv gen w :
  intervals w !! h = Some iv ->
  run t w [Tick h; Fulfilled (nextFetch w) gen] =
    Some (onFulfilled t h gen
            (settle (nextFetch w) (sendRequest h (taskId iv) w))).
Proof.
  intros Hi. cbn [run step]. rewrite Hi. wsimpl.
  now rewrite lookup_insert_eq.
Qed.

(** An answer that is not terminal leaves the timers, the lyrics, the
    title and the timeouts as they are. *)
Lemma onFulfilled_nonterminal h gen w :
  nonterminal gen ->
  intervals (onFulfilled t h gen w) = intervals w
  /\ nextHandle (onFulfilled t h gen w) = nextHandle w
  /\ pollIntervalRef (onFulfilled t h gen w) = pollIntervalRef w
  /\ lyrics (store (onFulfilled t h gen w)) = lyrics (store w)
  /\ title (store (onFulfilled t h gen w)) = title (store w)
  /\ timeouts (onFulfilled t h gen w) = timeouts w.
Proof.
  unfold nonterminal, onFulfilled.
  destruct (Generation.status gen); cbn [terminal]; try discriminate;
    intros _; wsimpl; auto 10.
Qed.

Lemma observe_nonterminal pre : forall h iv w,
  Forall nonterminal pre -> intervals w !! h = Some iv ->
  exists w1,
    observe t h pre w = Some w1
    /\ intervals w1 = intervals w
    /\ nextHandle w1 = nextHandle w
    /\ pollIntervalRef w1 = pollIntervalRef w
    /\ lyrics (store w1) = lyrics (store w)
    /\ title (store w1) = title (store w)
    /\ timeouts w1 = timeouts w.
Proof.
  induction pre as [|gen pre IH]; intros h iv w Hpre Hi.
  - exists w. cbn [observe]. auto 10.
  - inversion Hpre as [|? ? Hgen Hpre']; subst.
    cbn [observe]. rewrite (round h iv gen w Hi).
    set (w1 := onFulfilled t h gen _).
    destruct (onFulfilled_nonterminal h gen
                (settle (nextFetch w) (sendRequest h (taskId iv) w)) Hgen)
      as (Ei & En & Er & El & Et & Eo).
    fold w1 in Ei, En, Er, El, Et, Eo. wsimpl.
    destruct (IH h iv w1 Hpre') as (w2 & Hobs & Ei2 & En2 & Er2 & El2 & Et2 & Eo2).
    { now rewrite Ei. }
    exists w2. rewrite Hobs.
    repeat split; congruence.
Qed.

Lemma observe_app h pre gens : forall w,
  observe t h (pre ++ gens) w =
    match observe t h pre w with
    | Some w1 => observe t h gens w1
    | None => None
    end.
Proof.
  induction pre as [|gen pre IH]; intros w; [reflexivity|].
  cbn [observe app].
  destruct (run t w _) as [w1|]; [apply IH|reflexivity].
Qed.

(** The polling loop that [pollTask] starts, during answers that are
    not terminal. *)
Lemma pollTask_observe id pre w0 :
  Forall nonterminal pre ->
  exists w1,
    observe t (nextHandle w0) pre (pollTask id w0) = Some w1
    /\ intervals w1 !! nextHandle w0
         = Some {| taskId := id; period := 2000 |}
    /\ nextHandle w1 = Pos.succ (nextHandle w0)
    /\ lyrics (store w1) = lyrics (store w0)
    /\ title (store w1) = title (store w0)
    /\ timeouts w1 = timeouts w0.
Proof.
  intros Hpre.
  destruct (pollTask_timers id w0) as (En & _ & Ei & _).
  assert (intervals (pollTask id w0) !! nextHandle w0
          = Some {| taskId := id; period := 2000 |}) as Hi
    by (rewrite Ei; apply lookup_insert_eq).
  destruct (observe_nonterminal pre _ _ _ Hpre Hi)
    as (w1 & Hobs & Ei1 & En1 & _ & El & Et & Eo).
  exists w1. rewrite Ei1, En1, El, Et, Eo.
  repeat split; try assumption;
    unfold pollTask; destruct (pollIntervalRef w0); reflexivity.
Qed.

(** C3: a polling loop whose answers end with a failed status stops
    at that tick for good; the error it reports is the server's
    error message as it is when there is one that is not empty, and
    "Generation failed." otherwise; the progress message is
    emptied. *)
Theorem failed_sequence_reports_error
    (w0 : World) (id : jsstring) (pre : list Generation) (gen : Generation) :
  Forall nonterminal pre ->
  Generation.status gen = failed ->
  exists w',
    observe t (nextHandle w0) (pre ++ [gen]) (pollTask id w0) = Some w'
    /\ generationStatus (store w') = st failed
    /\ (forall m, Generation.error_message gen = Some m -> m <> [] ->
          errorMessage (store w') = Some m)
    /\ (Generation.error_message gen = None
        \/ Generation.error_message gen = Some [] ->
          errorMessage (store w') = Some (js "Generation failed."))
    /\ progressMessage w' = []
    /\ intervals w' !! nextHandle w0 = None
    /\ stopped t (nextHandle w0) w'.
Proof.
  intros Hpre Hgen.
  destruct (pollTask_observe id pre w0 Hpre)
    as (w1 & Hobs & Hi & En & _).
  rewrite observe_app, Hobs. cbn [observe].
  rewrite (round _ _ gen w1 Hi). eexists. split; [reflexivity|].
  set (w2 := settle _ _).
  destruct (onFulfilled_timers t (nextHandle w0) gen w2)
    as (En2 & _ & Ei2 & _).
  rewrite Hgen in Ei2. cbn [terminal] in Ei2.
  assert (intervals (onFulfilled t (nextHandle w0) gen w2)
            !! nextHandle w0 = None) as Hdead
    by (rewrite Ei2; apply lookup_delete_eq).
  assert (stopped t (nextHandle w0)
            (onFulfilled t (nextHandle w0) gen w2)) as Hstop.
  { apply dead_stopped; [|assumption].
    rewrite En2. subst w2. wsimpl. rewrite En. lia. }
  unfold onFulfilled in *. rewrite Hgen in *. wsimpl.
  repeat split; try assumption.
  - intros m -> Hm. unfold or_else.
    destruct m; [contradiction|reflexivity].
  - intros [->| ->]; reflexivity.
Qed.

(** C4: a polling loop whose first terminal answer is a completed
    status, at that tick: takes the lyrics and the title of the
    answer when they are there, sets the status to completed and the
    success message, empties the progress message, stops for good,
    and schedules the scroll into view 200 ms later. *)
Theorem completed_sequence_finishes
    (w0 : World) (id : jsstring) (pre : list Generation) (gen : Generation) :
  Forall nonterminal pre ->
  Generation.status gen = completed ->
  exists w',
    observe t (nextHandle w0) (pre ++ [gen]) (pollTask id w0) = Some w'
    /\ lyrics (store w')
         = or_else (Generation.lyrics gen) (lyrics (store w0))
    /\ title (store w')
         = or_else (Generation.title gen) (title (store w0))
    /\ generationStatus (store w') = st completed
    /\ successMessage (store w')
         = Some (t (js "create.musicGeneratedSuccess"))
    /\ progressMessage w' = []
    /\ intervals w' !! nextHandle w0 = None
    /\ pollIntervalRef w' = None
    /\ stopped t (nextHandle w0) w'
    /\ timeouts w' = timeouts w0 ++ [(scrollResultIntoView, 200%Z)].
Proof.
  intros Hpre Hgen.
  destruct (pollTask_observe id pre w0 Hpre)
    as (w1 & Hobs & Hi & En & El & Et & Eo).
  rewrite observe_app, Hobs. cbn [observe].
  rewrite (round _ _ gen w1 Hi). eexists. split; [reflexivity|].
  set (w2 := settle _ _).
  destruct (onFulfilled_timers t (nextHandle w0) gen w2)
    as (En2 & _ & Ei2 & Er2).
  rewrite Hgen in Ei2, Er2. cbn [terminal] in Ei2, Er2.
  assert (intervals (onFulfilled t (nextHandle w0) gen w2)
            !! nextHandle w0 = None) as Hdead
    by (rewrite Ei2; apply lookup_delete_eq).
  assert (stopped t (nextHandle w0)
            (onFulfilled t (nextHandle w0) gen w2)) as Hstop.
  { apply dead_stopped; [|assumption].
    rewrite En2. subst w2. wsimpl. rewrite En. lia. }
  assert (lyrics (store w2) = lyrics (store w0)) as El2
    by (subst w2; wsimpl; exact El).
  assert (title (store w2) = title (store w0)) as Et2
    by (subst w2; wsimpl; exact Et).
  assert (timeouts w2 = timeouts w0) as Eo2
    by (subst w2; wsimpl; exact Eo).
  clearbody w2.
  repeat split; try assumption;
    unfold onFulfilled; rewrite Hgen; wsimpl;
    unfold when_truthy, or_else;
    destruct (Generation.lyrics gen) as [l|];
    destruct (Generation.title gen) as [tt|];
    try destruct (truthy l); try destruct (truthy tt);
    wsimpl; congruence.
Qed.

Lemma quiet_step e w w' :
  quiet e -> step t w e = Some w' ->
  intervals w' = intervals w /\ nextHandle w' = nextHandle w
  /\ pollIntervalRef w' = pollIntervalRef w.
Proof.
  destruct e; cbn [quiet step]; try contradiction; intros Hq Hstep.
  - destruct (intervals w !! h); [|discriminate].
    injection Hstep as <-. wsimpl. auto.
  - destruct (fetches w !! f) as [r|]; [|discriminate].
    injection Hstep as <-.
    destruct (onFulfilled_nonterminal (interval r) gen (settle f w) Hq)
      as (-> & -> & -> & _). wsimpl. auto.
  - injection Hstep as <-. wsimpl. auto.
Qed.

Lemma quiet_run es : forall w w',
  Forall quiet es -> run t w es = Some w' ->
  intervals w' = intervals w /\ nextHandle w' = nextHandle w
  /\ pollIntervalRef w' = pollIntervalRef w.
Proof.
  induction es as [|e es IH]; intros w w' Hq Hrun; cbn [run] in Hrun.
  - injection Hrun as <-. auto.
  - inversion Hq as [|? ? He Hes]; subst.
    destruct (step t w e) as [w1|] eqn:E; [|discriminate].
    destruct (quiet_step e w w1 He E) as (<- & <- & <-).
    now apply IH.
Qed.

(** Starting a loop when every interval alive is the tracked one
    leaves the new interval alone. *)
Lemma pollTask_tracked id w :
  tracked w ->
  intervals (pollTask id w)
    = {[ nextHandle w := {| taskId := id; period := 2000 |} ]}.
Proof.
  intros Ht. destruct (pollTask_timers id w) as (_ & _ & -> & _).
  rewrite <- insert_empty. f_equal. apply map_eq. intros k.
  rewrite lookup_empty.
  destruct (pollIntervalRef w) as [h|] eqn:Er.
  - rewrite lookup_delete. case_decide; [reflexivity|].
    destruct (intervals w !! k) as [iv|] eqn:Ek; [|reflexivity].
    pose proof (Ht k (mk_is_Some _ _ Ek)) as Hk. congruence.
  - destruct (intervals w !! k) as [iv|] eqn:Ek; [|reflexivity].
    pose proof (Ht k (mk_is_Some _ _ Ek)) as Hk. congruence.
Qed.

(** What the callback writes when a request is answered. *)
Lemma onFulfilled_writes h gen w :
  progress (store (onFulfilled t h gen w))
    = nullish (Generation.progress gen) 0%float
  /\ (terminal (Generation.status gen) = true ->
        generationStatus (store (onFulfilled t h gen w))
          = st (Generation.status gen)).
Proof.
  unfold onFulfilled, when_truthy.
  destruct (Generation.status gen); cbn [terminal];
    destruct (Generation.lyrics gen) as [l|];
    destruct (Generation.title gen) as [tt|];
    try destruct (truthy l); try destruct (truthy tt);
    wsimpl; (split; [reflexivity|]);
    first [reflexivity | intros H; discriminate H | intros _; reflexivity].
Qed.

(** C1, as the code has it: when every interval alive is the one the
    hook tracks (as on first use), [pollTask(A)] and then
    [pollTask(B)], with between the two calls nothing but ticks,
    answers that are not terminal and writes by other code (no
    request, of the loop of A or left over from an earlier loop, is
    answered completed or failed, none fails, and the hook is not
    called), leave exactly one interval alive, the one of B, which
    the hook tracks; the interval of A, alive until then, never
    fires again, so the loop of A sends no further request.  The
    requests in flight stay in flight: [pollTask(B)] cancels none,
    and the callback of each still runs when it is answered, and
    writes the progress and, on a terminal answer, the generation
    status. *)
Theorem restart_leaves_one_interval
    (w0 : World) (A B : jsstring) (es : list Event) (w1 : World) :
  tracked w0 -> Forall quiet es ->
  run t (pollTask A w0) es = Some w1 ->
  intervals (pollTask B w1)
    = {[ nextHandle w1 := {| taskId := B; period := 2000 |} ]}
  /\ pollIntervalRef (pollTask B w1) = Some (nextHandle w1)
  /\ nextHandle w0 <> nextHandle w1
  /\ intervals w1 !! nextHandle w0
       = Some {| taskId := A; period := 2000 |}
  /\ stopped t (nextHandle w0) (pollTask B w1)
  /\ fetches (pollTask B w1) = fetches w1
  /\ (forall f r gen, fetches w1 !! f = Some r ->
        exists w',
          step t (pollTask B w1) (Fulfilled f gen) = Some w'
          /\ progress (store w')
               = nullish (Generation.progress gen) 0%float
          /\ (terminal (Generation.status gen) = true ->
                generationStatus (store w')
                  = st (Generation.status gen))).
Proof.
  intros Ht Hq Hrun.
  destruct (quiet_run es _ _ Hq Hrun) as (Ei & En & Er).
  rewrite (pollTask_tracked A w0 Ht) in Ei.
  destruct (pollTask_timers A w0) as (EnA & _ & _ & ErA).
  rewrite EnA in En. rewrite ErA in Er.
  destruct (pollTask_timers B w1) as (EnB & EfB & EiB & ErB).
  assert (intervals (pollTask B w1)
          = {[ nextHandle w1 := {| taskId := B; period := 2000 |} ]}) as E1.
  { rewrite EiB, Er, Ei, delete_singleton_eq. apply insert_empty. }
  split; [exact E1|]. split; [exact ErB|].
  split; [rewrite En; lia|].
  split; [rewrite Ei; apply lookup_singleton_eq|].
  split.
  { apply dead_stopped.
    - rewrite EnB, En. lia.
    - rewrite E1. apply lookup_singleton_ne. rewrite En. lia. }
  split; [exact EfB|].
  intros f r gen Hf. cbn [step]. rewrite EfB, Hf.
  eexists. split; [reflexivity|]. apply onFulfilled_writes.
Qed.

End WithMessages.

(** C1, as stated, fails: the loop of A has a request in flight when
    [pollTask(B)] is called; when that request is answered, its
    callback writes the shared generation-status state. *)
Lemma stale_answer_overwrites_state :
  exists w2 w3,
    run Sample.messages init
        [PollTask (js "A"); Tick 1; PollTask (js "B")] = Some w2
    /\ fetches w2 !! 1%positive
         = Some {| interval := 1; task := js "A" |}
    /\ intervals w2
         = {[ 2%positive := {| taskId := js "B"; period := 2000 |} ]}
    /\ step Sample.messages w2 (Fulfilled 1 Sample.song) = Some w3
    /\ shared w3 <> shared w2
    /\ generationStatus (store w2) = idle
    /\ generationStatus (store w3) = st completed
    /\ lyrics (store w3) = js "la la".
Proof.
  eexists. eexists.
  split; [vm_compute; reflexivity|].
  split; [vm_compute; reflexivity|].
  split; [vm_compute; reflexivity|].
  split; [vm_compute; reflexivity|].
  split; [vm_compute; intros H; discriminate H|].
  repeat split; vm_compute; reflexivity.
Qed.

(** Why the intervals alive must be tracked: the callback of a stale
    request that gets a terminal answer empties the handle the hook
    holds, and the next [pollTask] then clears nothing. *)
Lemma untracked_interval_survives :
  exists w,
    run Sample.messages init
        [PollTask (js "A"); Tick 1; PollTask (js "B");
         Fulfilled 1 Sample.song; PollTask (js "C")] = Some w
    /\ intervals w
         = <[3%positive := {| taskId := js "C"; period := 2000 |}]>
             {[ 2%positive := {| taskId := js "B"; period := 2000 |} ]}.
Proof. eexists. split; vm_compute; reflexivity. Qed.

(** Why no request may get a terminal answer between the two calls,
    not even one left over from an earlier loop: its callback empties
    the handle the hook holds, which by then is the handle of the
    interval of A; [pollTask(B)] then clears nothing, and the
    intervals of A and of B are both alive. *)
Lemma stale_terminal_answer_keeps_interval :
  exists w0 w1,
    run Sample.messages init [PollTask (js "Z"); Tick 1] = Some w0
    /\ tracked w0
    /\ run Sample.messages (pollTask (js "A") w0) [Fulfilled 1 Sample.song]
         = Some w1
    /\ intervals (pollTask (js "B") w1)
         = <[3%positive := {| taskId := js "B"; period := 2000 |}]>
             {[ 2%positive := {| taskId := js "A"; period := 2000 |} ]}.
Proof.
  assert (exists w0,
            run Sample.messages init [PollTask (js "Z"); Tick 1] = Some w0
            /\ intervals w0
                 = {[ 1%positive := {| taskId := js "Z"; period := 2000 |} ]}
            /\ pollIntervalRef w0 = Some 1%positive) as (w0 & Hrun & Ei & Er).
  { eexists. repeat split; vm_compute; reflexivity. }
  exists w0. eexists. split; [exact Hrun|]. split.
  { intros h [iv Hiv]. rewrite Ei in Hiv.
    apply lookup_singleton_Some in Hiv as [<- _]. exact Er. }
  injection Hrun as <-. split; vm_compute; reflexivity.
Qed.

Lemma restart_leaves_one_interval_witness :
  tracked init
  /\ Forall quiet [Tick 1]
  /\ exists w1,
       run Sample.messages (pollTask (js "A") init) [Tick 1] = Some w1
       /\ intervals (pollTask (js "B") w1)
            = {[ nextHandle w1 := {| taskId := js "B"; period := 2000 |} ]}.
Proof.
  assert (tracked init) as Ht.
  { intros h [iv Hiv]. cbn [init intervals] in Hiv.
    rewrite lookup_empty in Hiv. discriminate. }
  assert (Forall quiet [Tick 1]) as Hq by (repeat constructor).
  split; [exact Ht|]. split; [exact Hq|].
  eexists. split; [vm_compute; reflexivity|].
  refine (proj1 (restart_leaves_one_interval Sample.messages init
                   (js "A") (js "B") [Tick 1] _ Ht Hq _)).
  vm_compute. reflexivity.
Defined.

Lemma fetch_failure_is_fatal_witness :
  exists w,
    reachable Sample.messages w
    /\ fetches w !! 1%positive = Some {| interval := 1; task := js "A" |}
    /\ exists w',
         step Sample.messages w (Rejected 1) = Some w'
         /\ generationStatus (store w') = st failed
         /\ errorMessage (store w') = Some (js "create.lostConnection").
Proof.
  eexists.
  split; [exists [PollTask (js "A"); Tick 1]; vm_compute; reflexivity|].
  split; [vm_compute; reflexivity|].
  match goal with
  | |- exists w', step _ ?w _ = _ /\ _ =>
      destruct (fetch_failure_is_fatal Sample.messages w 1%positive
                  {| interval := 1; task := js "A" |})
        as (w' & Hstep & Hst & Hmsg & _)
  end.
  - exists [PollTask (js "A"); Tick 1]. vm_compute. reflexivity.
  - vm_compute. reflexivity.
  - exists w'. repeat split; assumption.
Defined.

Lemma failed_sequence_reports_error_witness :
  Forall nonterminal [Sample.answer pending; Sample.answer processing]
  /\ Generation.status Sample.unavailable = failed
  /\ exists w',
       observe Sample.messages 1
         ([Sample.answer pending; Sample.answer processing]
            ++ [Sample.unavailable])
         (pollTask (js "A") init) = Some w'
       /\ errorMessage (store w') = Some (js "model unavailable").
Proof.
  assert (Forall nonterminal
            [Sample.answer pending; Sample.answer processing]) as Hpre
    by (repeat constructor).
  split; [exact Hpre|]. split; [reflexivity|].
  destruct (failed_sequence_reports_error Sample.messages init (js "A")
              [Sample.answer pending; Sample.answer processing]
              Sample.unavailable Hpre eq_refl)
    as (w' & Hobs & _ & Hmsg & _).
  exists w'. split; [exact Hobs|].
  apply Hmsg; [reflexivity|discriminate].
Defined.

Lemma completed_sequence_finishes_witness :
  Forall nonterminal [Sample.answer pending; Sample.answer processing;
                      Sample.answer processing]
  /\ Generation.status Sample.song = completed
  /\ exists w',
       observe Sample.messages 1
         ([Sample.answer pending; Sample.answer processing;
           Sample.answer processing] ++ [Sample.song])
         (pollTask (js "A") init) = Some w'
       /\ generationStatus (store w') = st completed
       /\ lyrics (store w') = js "la la"
       /\ intervals w' !! 1%positive = None
       /\ stopped Sample.messages 1 w'
       /\ timeouts w' = [(scrollResultIntoView, 200%Z)].
Proof.
  assert (Forall nonterminal
            [Sample.answer pending; Sample.answer processing;
             Sample.answer processing]) as Hpre
    by (repeat constructor).
  split; [exact Hpre|]. split; [reflexivity|].
  destruct (completed_sequence_finishes Sample.messages init (js "A")
              [Sample.answer pending; Sample.answer processing;
               Sample.answer processing]
              Sample.song Hpre eq_refl)
    as (w' & Hobs & Hl & _ & Hst & _ & _ & Hdead & _ & Hstop & Hto).
  exists w'. repeat split; assumption.
Defined.

End PollingProofs.


(* ===================================================================== *)
(** ** More on the task poller *)
(* ===================================================================== *)

Module PollingMore.
Import JS Polling PollingNotions PollingFacts.

Section WithMessages.
Variable t : jsstring -> jsstring.

Lemma step_ref_given_out w e w' :
  ref_given_out w -> step t w e = Some w' -> ref_given_out w'.
Proof.
  intros Hr Hstep.
  destruct e as [id| |h0|f gen|f| |s m]; cbn [step] in Hstep; intros h.
  - injection Hstep as <-.
    destruct (pollTask_timers id w) as (-> & _ & _ & ->).
    intros [= <-]. lia.
  - injection Hstep as <-. unfold cancelPolling.
    destruct (pollIntervalRef w) eqn:E; wsimpl; [discriminate|].
    rewrite E. discriminate.
  - destruct (intervals w !! h0); [|discriminate].
    injection Hstep as <-. wsimpl. apply Hr.
  - destruct (fetches w !! f) as [r|]; [|discriminate].
    injection Hstep as <-.
    destruct (onFulfilled_timers t (interval r) gen (settle f w))
      as (-> & _ & _ & ->).
    destruct (terminal _); [discriminate|]. wsimpl. apply Hr.
  - destruct (fetches w !! f) as [r|]; [|discriminate].
    injection Hstep as <-.
    destruct (onRejected_timers t (interval r) (settle f w))
      as (-> & _ & _ & ->). discriminate.
  - injection Hstep as <-. unfold unmount.
    destruct (pollIntervalRef w) eqn:E; wsimpl; [|rewrite E; discriminate].
    rewrite E. intros [= <-]. now apply Hr.
  - injection Hstep as <-. wsimpl. apply Hr.
Qed.

Lemma reachable_ref_given_out w : reachable t w -> ref_given_out w.
Proof.
  intros [es Hrun].
  assert (ref_given_out init) as Hi by (intros h; discriminate).
  revert Hrun Hi. generalize init. induction es as [|e es IH];
    intros w0 Hrun Hi; cbn [run] in Hrun.
  - now injection Hrun as <-.
  - destruct (step t w0 e) as [w1|] eqn:E; [|discriminate].
    eapply IH; [exact Hrun|]. eapply step_ref_given_out; eauto.
Qed.

(** X12: [cancelPolling] stops the loop the hook tracks for good,
    empties the handle and the progress message, and leaves the
    store (the generation status with it) and the requests in
    flight as they are. *)
Theorem cancelPolling_stops (w : World) :
  reachable t w ->
  pollIntervalRef (cancelPolling w) = None
  /\ progressMessage (cancelPolling w) = []
  /\ store (cancelPolling w) = store w
  /\ fetches (cancelPolling w) = fetches w
  /\ forall h, pollIntervalRef w = Some h ->
       intervals (cancelPolling w) !! h = None
       /\ stopped t h (cancelPolling w).
Proof.
  intros Hreach. apply reachable_ref_given_out in Hreach.
  unfold cancelPolling.
  destruct (pollIntervalRef w) as [h0|] eqn:E; wsimpl;
    (split; [first [reflexivity|exact E]|]); (split; [reflexivity|]);
    (split; [reflexivity|]); (split; [reflexivity|]);
    intros h Hh; [|discriminate].
  injection Hh as <-. split; [apply lookup_delete_eq|].
  apply dead_stopped; wsimpl; [now apply Hreach|apply lookup_delete_eq].
Qed.

(** X13: cancelling twice is cancelling once; with no loop tracked
    and an empty progress message, [cancelPolling] changes
    nothing. *)
Theorem cancelPolling_idempotent (w : World) :
  cancelPolling (cancelPolling w) = cancelPolling w
  /\ (pollIntervalRef w = None -> progressMessage w = [] ->
        cancelPolling w = w).
Proof.
  split.
  - unfold cancelPolling.
    destruct (pollIntervalRef w) as [h|] eqn:E; wsimpl; [reflexivity|].
    rewrite E. reflexivity.
  - intros Hr Hm. unfold cancelPolling. rewrite Hr.
    destruct w. cbn in *. now subst.
Qed.

(** X14: [cancelPolling] cancels no request: the callback of one in
    flight still runs when it is answered, and writes the progress
    and, on a terminal answer, the generation status. *)
Theorem cancel_keeps_requests (w : World) (f : positive) (r : Fetch)
    (gen : Generation) :
  fetches w !! f = Some r ->
  exists w',
    step t (cancelPolling w) (Fulfilled f gen) = Some w'
    /\ progress (store w') = nullish (Generation.progress gen) 0%float
    /\ (Generation.status gen = completed ->
          generationStatus (store w') = st completed)
    /\ (Generation.status gen = failed ->
          generationStatus (store w') = st failed).
Proof.
  intros Hf. cbn [step].
  assert (fetches (cancelPolling w) !! f = Some r) as ->.
  { unfold cancelPolling. destruct (pollIntervalRef w); wsimpl; exact Hf. }
  eexists. split; [reflexivity|].
  unfold onFulfilled. destruct (Generation.status gen);
    wsimpl; repeat split; try discriminate; try reflexivity;
    unfold when_truthy;
    destruct (Generation.lyrics gen) as [l|];
    destruct (Generation.title gen) as [tt|];
    try destruct (truthy l); try destruct (truthy tt);
    wsimpl; reflexivity.
Qed.

(** X15: an answer that is not terminal writes the progress (0 when
    the answer has none) and the progress message (empty when the
    answer has none), and nothing else: the generation status, the
    lyrics, the title and the messages of the store stay, and the
    loop goes on. *)
Theorem nonterminal_answer (w : World) (f : positive) (r : Fetch)
    (gen : Generation) :
  fetches w !! f = Some r -> nonterminal gen ->
  exists w',
    step t w (Fulfilled f gen) = Some w'
    /\ store w' =
         setProgress (nullish (Generation.progress gen) 0%float) (store w)
    /\ progressMessage w' = or_else (Generation.progress_message gen) []
    /\ intervals w' = intervals w
    /\ pollIntervalRef w' = pollIntervalRef w
    /\ timeouts w' = timeouts w
    /\ fetches w' = delete f (fetches w).
Proof.
  intros Hf Hn. cbn [step]. rewrite Hf. eexists. split; [reflexivity|].
  unfold nonterminal in Hn. unfold onFulfilled.
  destruct (Generation.status gen); cbn [terminal] in Hn;
    try discriminate; wsimpl; auto 10.
Qed.

Lemma step_cadence w e w' :
  cadence w -> step t w e = Some w' -> cadence w'.
Proof.
  intros [Hp Hto] Hstep.
  destruct e as [id| |h0|f gen|f| |s m]; cbn [step] in Hstep.
  - injection Hstep as <-. split.
    + destruct (pollTask_timers id w) as (_ & _ & -> & _).
      intros h iv H.
      apply lookup_insert_Some in H as [[_ <-]|[_ H]]; [reflexivity|].
      destruct (pollIntervalRef w); [|eauto].
      apply lookup_delete_Some in H as [_ H]. eauto.
    + unfold pollTask. destruct (pollIntervalRef w); wsimpl; exact Hto.
  - injection Hstep as <-. unfold cancelPolling.
    destruct (pollIntervalRef w); wsimpl; split; auto.
    intros h iv H. wsimpl. apply lookup_delete_Some in H as [_ H]. eauto.
  - destruct (intervals w !! h0); [|discriminate].
    injection Hstep as <-. split; wsimpl; assumption.
  - destruct (fetches w !! f) as [r|]; [|discriminate].
    injection Hstep as <-. split.
    + destruct (onFulfilled_timers t (interval r) gen (settle f w))
        as (_ & _ & -> & _). wsimpl. intros h iv H.
      destruct (terminal _); [|eauto].
      apply lookup_delete_Some in H as [_ H]. eauto.
    + unfold onFulfilled. destruct (Generation.status gen); wsimpl;
        try assumption.
      unfold when_truthy.
      destruct (Generation.lyrics gen) as [l|];
        destruct (Generation.title gen) as [tt|];
        try destruct (truthy l); try destruct (truthy tt);
        wsimpl; apply Forall_app; split; auto.
  - destruct (fetches w !! f) as [r|]; [|discriminate].
    injection Hstep as <-. split.
    + destruct (onRejected_timers t (interval r) (settle f w))
        as (_ & _ & -> & _). wsimpl. intros h iv H.
      apply lookup_delete_Some in H as [_ H]. eauto.
    + unfold onRejected. wsimpl. assumption.
  - injection Hstep as <-. unfold unmount.
    destruct (pollIntervalRef w); wsimpl; split; auto.
    intros h iv H. wsimpl. apply lookup_delete_Some in H as [_ H]. eauto.
  - injection Hstep as <-. split; wsimpl; assumption.
Qed.

(** X16: the cadence is fixed: in every world the hook can be in,
    every interval alive has a period of 2000 ms, and the only
    timeouts ever scheduled are scrolls into view after 200 ms. *)
Theorem reachable_cadence (w : World) : reachable t w -> cadence w.
Proof.
  intros [es Hrun].
  assert (cadence init) as Hi.
  { split; [|constructor]. intros h iv H. cbn [init intervals] in H.
    rewrite lookup_empty in H. discriminate. }
  revert Hrun Hi. generalize init. induction es as [|e es IH];
    intros w0 Hrun Hi; cbn [run] in Hrun.
  - now injection Hrun as <-.
  - destruct (step t w0 e) as [w1|] eqn:E; [|discriminate].
    eapply IH; [exact Hrun|]. eapply step_cadence; eauto.
Qed.

Lemma step_requests_match w e w' :
  bounded w -> requests_match w -> step t w e = Some w' ->
  requests_match w'.
Proof.
  intros [Hbi Hbf] Hm Hstep.
  destruct e as [id| |h0|f gen|f| |s m]; cbn [step] in Hstep.
  - injection Hstep as <-.
    destruct (pollTask_timers id w) as (_ & Ef & Ei & _).
    intros f r iv. rewrite Ef, Ei. intros Hf Hi.
    apply lookup_insert_Some in Hi as [[E _]|[_ Hi]].
    + apply Hbf in Hf. lia.
    + apply (Hm f r iv Hf).
      destruct (pollIntervalRef w); [|assumption].
      now apply lookup_delete_Some in Hi as [_ Hi].
  - injection Hstep as <-. unfold cancelPolling.
    destruct (pollIntervalRef w); wsimpl; [|exact Hm].
    intros f r iv Hf Hi. wsimpl.
    apply lookup_delete_Some in Hi as [_ Hi]. eauto.
  - destruct (intervals w !! h0) as [iv0|] eqn:E0; [|discriminate].
    injection Hstep as <-. intros f r iv Hf Hi. wsimpl.
    apply lookup_insert_Some in Hf as [[_ <-]|[_ Hf]]; wsimpl.
    + congruence.
    + eauto.
  - destruct (fetches w !! f) as [r0|]; [|discriminate].
    injection Hstep as <-. intros f' r iv.
    destruct (onFulfilled_timers t (interval r0) gen (settle f w))
      as (_ & -> & -> & _). wsimpl. intros Hf Hi.
    apply lookup_delete_Some in Hf as [_ Hf].
    apply (Hm f' r iv Hf). destruct (terminal _); [|assumption].
    now apply lookup_delete_Some in Hi as [_ Hi].
  - destruct (fetches w !! f) as [r0|]; [|discriminate].
    injection Hstep as <-. intros f' r iv.
    destruct (onRejected_timers t (interval r0) (settle f w))
      as (_ & -> & -> & _). wsimpl. intros Hf Hi.
    apply lookup_delete_Some in Hf as [_ Hf].
    apply (Hm f' r iv Hf).
    now apply lookup_delete_Some in Hi as [_ Hi].
  - injection Hstep as <-. unfold unmount.
    destruct (pollIntervalRef w); wsimpl; [|exact Hm].
    intros f r iv Hf Hi. wsimpl.
    apply lookup_delete_Some in Hi as [_ Hi]. eauto.
  - injection Hstep as <-. exact Hm.
Qed.

(** X17: in every world the hook can be in, a request in flight
    whose interval is still alive asks about the task of that
    interval: handles are not given out twice. *)
Theorem reachable_requests_match (w : World) :
  reachable t w -> requests_match w.
Proof.
  intros [es Hrun].
  assert (bounded init /\ requests_match init) as Hi.
  { split; [split|].
    - intros h iv H. cbn [init intervals] in H.
      rewrite lookup_empty in H. discriminate.
    - intros f r H. cbn [init fetches] in H.
      rewrite lookup_empty in H. discriminate.
    - intros f r iv H. cbn [init fetches] in H.
      rewrite lookup_empty in H. discriminate. }
  revert Hrun Hi. generalize init. induction es as [|e es IH];
    intros w0 Hrun [Hb Hm]; cbn [run] in Hrun.
  - now injection Hrun as <-.
  - destruct (step t w0 e) as [w1|] eqn:E; [|discriminate].
    eapply IH; [exact Hrun|]. split.
    + eapply step_bounded; eauto.
    + eapply step_requests_match; eauto.
Qed.

(** X18: a tick does not wait for the answer to the tick before: two
    ticks in a row of a loop that is alive put two requests for its
    task in flight, and cancel none. *)
Theorem ticks_overlap (w : World) (h : handle) (iv : Interval) :
  intervals w !! h = Some iv ->
  exists w',
    run t w [Tick h; Tick h] = Some w'
    /\ fetches w' !! nextFetch w
         = Some {| interval := h; task := taskId iv |}
    /\ fetches w' !! Pos.succ (nextFetch w)
         = Some {| interval := h; task := taskId iv |}
    /\ (forall f, f <> nextFetch w -> f <> Pos.succ (nextFetch w) ->
          fetches w' !! f = fetches w !! f)
    /\ store w' = store w.
Proof.
  intros Hi. cbn [run step]. rewrite Hi. wsimpl. rewrite Hi.
  eexists. split; [reflexivity|]. wsimpl. repeat split.
  - rewrite lookup_insert_ne by lia. apply lookup_insert_eq.
  - apply lookup_insert_eq.
  - intros f H1 H2. now rewrite !lookup_insert_ne by congruence.
Qed.

(** X19: the cleanup at unmount stops the loop the hook tracks for
    good; it keeps the handle, the progress message, the store and
    the requests in flight. *)
Theorem unmount_stops (w : World) (h : handle) :
  reachable t w -> pollIntervalRef w = Some h ->
  stopped t h (unmount w)
  /\ pollIntervalRef (unmount w) = Some h
  /\ progressMessage (unmount w) = progressMessage w
  /\ store (unmount w) = store w
  /\ fetches (unmount w) = fetches w.
Proof.
  intros Hreach Hr. apply reachable_ref_given_out in Hreach.
  unfold unmount. rewrite Hr. wsimpl. repeat split; auto.
  apply dead_stopped; wsimpl; [now apply Hreach|apply lookup_delete_eq].
Qed.

End WithMessages.

Lemma cancelPolling_stops_witness :
  exists w,
    reachable Sample.messages w
    /\ pollIntervalRef w = Some 1%positive
    /\ stopped Sample.messages 1 (cancelPolling w).
Proof.
  eexists.
  split; [exists [PollTask (js "A"); Tick 1]; vm_compute; reflexivity|].
  split; [reflexivity|].
  match goal with
  | |- stopped _ _ (cancelPolling ?w) =>
      refine (proj2 (proj2 (proj2 (proj2 (proj2
                (cancelPolling_stops Sample.messages w _))))
                1%positive eq_refl))
  end.
  exists [PollTask (js "A"); Tick 1]. vm_compute. reflexivity.
Defined.

Lemma cancel_keeps_requests_witness :
  exists w,
    run Sample.messages init [PollTask (js "A"); Tick 1] = Some w
    /\ fetches w !! 1%positive = Some {| interval := 1; task := js "A" |}
    /\ exists w',
         step Sample.messages (cancelPolling w) (Fulfilled 1 Sample.song)
           = Some w'
         /\ generationStatus (store w') = st completed.
Proof.
  eexists.
  split; [vm_compute; reflexivity|].
  split; [vm_compute; reflexivity|].
  match goal with
  | |- exists w', step _ (cancelPolling ?w) _ = _ /\ _ =>
      destruct (cancel_keeps_requests Sample.messages w 1%positive
                  {| interval := 1; task := js "A" |} Sample.song)
        as (w' & Hstep & _ & Hc & _)
  end.
  - vm_compute. reflexivity.
  - exists w'. split; [exact Hstep|]. apply Hc. reflexivity.
Defined.

Lemma nonterminal_answer_witness :
  exists w,
    run Sample.messages init [PollTask (js "A"); Tick 1] = Some w
    /\ fetches w !! 1%positive = Some {| interval := 1; task := js "A" |}
    /\ nonterminal (Sample.answer processing)
    /\ exists w',
         step Sample.messages w (Fulfilled 1 (Sample.answer processing))
           = Some w'
         /\ intervals w' = intervals w.
Proof.
  eexists.
  split; [vm_compute; reflexivity|].
  split; [vm_compute; reflexivity|].
  split; [reflexivity|].
  match goal with
  | |- exists w', step _ ?w _ = _ /\ _ =>
      destruct (nonterminal_answer Sample.messages w 1%positive
                  {| interval := 1; task := js "A" |}
                  (Sample.answer processing))
        as (w' & Hstep & _ & _ & Hi & _)
  end.
  - vm_compute. reflexivity.
  - reflexivity.
  - exists w'. split; [exact Hstep|exact Hi].
Defined.

Lemma reachable_cadence_witness :
  exists w,
    reachable Sample.messages w
    /\ intervals w !! 1%positive
         = Some {| taskId := js "A"; period := 2000 |}
    /\ cadence w.
Proof.
  eexists.
  split; [exists [PollTask (js "A"); Tick 1]; vm_compute; reflexivity|].
  split; [vm_compute; reflexivity|].
  apply (reachable_cadence Sample.messages).
  exists [PollTask (js "A"); Tick 1]. vm_compute. reflexivity.
Defined.

Lemma reachable_requests_match_witness :
  exists w,
    reachable Sample.messages w
    /\ fetches w !! 1%positive = Some {| interval := 1; task := js "A" |}
    /\ requests_match w.
Proof.
  eexists.
  split; [exists [PollTask (js "A"); Tick 1]; vm_compute; reflexivity|].
  split; [vm_compute; reflexivity|].
  apply (reachable_requests_match Sample.messages).
  exists [PollTask (js "A"); Tick 1]. vm_compute. reflexivity.
Defined.

Lemma ticks_overlap_witness :
  intervals (pollTask (js "A") init) !! 1%positive
    = Some {| taskId := js "A"; period := 2000 |}
  /\ exists w',
       run Sample.messages (pollTask (js "A") init) [Tick 1; Tick 1]
         = Some w'
       /\ fetches w' !! 2%positive
            = Some {| interval := 1; task := js "A" |}.
Proof.
  split; [vm_compute; reflexivity|].
  destruct (ticks_overlap Sample.messages (pollTask (js "A") init) 1%positive
              {| taskId := js "A"; period := 2000 |})
    as (w' & Hrun & _ & H2 & _).
  - vm_compute. reflexivity.
  - exists w'. split; [exact Hrun|exact H2].
Defined.

Lemma unmount_stops_witness :
  exists w,
    reachable Sample.messages w
    /\ pollIntervalRef w = Some 1%positive
    /\ stopped Sample.messages 1 (unmount w).
Proof.
  eexists.
  split; [exists [PollTask (js "A"); Tick 1]; vm_compute; reflexivity|].
  split; [reflexivity|].
  match goal with
  | |- stopped _ _ (unmount ?w) =>
      refine (proj1 (unmount_stops Sample.messages w 1%positive _ eq_refl))
  end.
  exists [PollTask (js "A"); Tick 1]. vm_compute. reflexivity.
Defined.

End PollingMore.


(* ===================================================================== *)
(** ** The track actions and the selection of the create store *)
(* ===================================================================== *)

Module TrackActionsProofs.
Import JS TrackActions JSFacts TrimFacts SplitFacts.

Lemma str_eqb_eq a b : str_eqb a b = true <-> a = b.
Proof.
  revert b. induction a as [|x a IH]; intros [|y b]; cbn [str_eqb];
    split; try discriminate; try reflexivity.
  - intros H. apply andb_true_iff in H as [H1 H2].
    apply N.eqb_eq in H1. apply IH in H2. congruence.
  - intros [= -> ->]. rewrite N.eqb_refl. now apply IH.
Qed.

Lemma str_eqb_refl a : str_eqb a a = true.
Proof. now apply str_eqb_eq. Qed.

Lemma str_eqb_sym a b : str_eqb a b = str_eqb b a.
Proof.
  destruct (str_eqb a b) eqn:E, (str_eqb b a) eqn:E'; try reflexivity.
  - apply str_eqb_eq in E. subst. rewrite str_eqb_refl in E'. discriminate.
  - apply str_eqb_eq in E'. subst. rewrite str_eqb_refl in E. discriminate.
Qed.

Lemma includes_In l g : includes l g = true <-> In g l.
Proof.
  unfold includes. rewrite existsb_exists. split.
  - intros (x & Hx & E). apply str_eqb_eq in E. now subst.
  - intros H. exists g. split; [exact H|apply str_eqb_refl].
Qed.

Lemma includes_app l l' g :
  includes (l ++ l') g = includes l g || includes l' g.
Proof. apply existsb_app. Qed.

Lemma includes_filter l g x :
  includes (List.filter (fun y => negb (str_eqb y x)) l) g =
    if str_eqb g x then false else includes l g.
Proof.
  unfold includes. induction l as [|y l IH]; cbn [List.filter existsb].
  - now destruct (str_eqb g x).
  - destruct (str_eqb y x) eqn:Eyx; cbn [negb existsb]; rewrite IH.
    + destruct (str_eqb g x) eqn:Egx; [reflexivity|].
      apply str_eqb_eq in Eyx. subst y. now rewrite Egx.
    + destruct (str_eqb g x) eqn:Egx; [|reflexivity].
      apply str_eqb_eq in Egx. subst g. now rewrite str_eqb_sym, Eyx.
Qed.

(** Membership after a toggle. *)
Lemma includes_toggle x l g :
  includes (toggle x l) g =
    if str_eqb g x then negb (includes l g) else includes l g.
Proof.
  unfold toggle. destruct (includes l x) eqn:E.
  - rewrite includes_filter. destruct (str_eqb g x) eqn:Egx; [|reflexivity].
    apply str_eqb_eq in Egx. subst. now rewrite E.
  - rewrite includes_app. cbn [includes existsb].
    rewrite orb_false_r. destruct (str_eqb g x) eqn:Egx.
    + apply str_eqb_eq in Egx. subst. fold (includes l x). rewrite E.
      reflexivity.
    + apply orb_false_r.
Qed.

Lemma toggle_NoDup x l : List.NoDup l -> List.NoDup (toggle x l).
Proof.
  intros H. unfold toggle. destruct (includes l x) eqn:E.
  - now apply List.NoDup_filter.
  - apply List.NoDup_app; [exact H| |].
    + constructor; [intros []|constructor].
    + intros y Hy [<-|[]]. apply includes_In in Hy. congruence.
Qed.

Lemma filter_absent x l :
  ~ In x l -> List.filter (fun y => negb (str_eqb y x)) l = l.
Proof.
  induction l as [|y l IH]; cbn [List.filter In]; [reflexivity|].
  intros H. destruct (str_eqb y x) eqn:E.
  - apply str_eqb_eq in E. subst. tauto.
  - cbn [negb]. rewrite IH by tauto. reflexivity.
Qed.

(** X20: toggling a genre (or a mood) twice gives the selection back
    when the genre was not selected; when it was, every copy of it is
    removed and it comes back once, at the end.  Either way the same
    genres are selected before and after. *)
Theorem toggle_twice (g : jsstring) (l : list jsstring) :
  (~ In g l -> toggle g (toggle g l) = l)
  /\ (In g l ->
      toggle g (toggle g l)
        = List.filter (fun x => negb (str_eqb x g)) l ++ [g])
  /\ (forall x, In x (toggle g (toggle g l)) <-> In x l).
Proof.
  split; [|split].
  - intros H. unfold toggle at 2.
    assert (includes l g = false) as ->.
    { destruct (includes l g) eqn:E; [|reflexivity].
      apply includes_In in E. contradiction. }
    unfold toggle. rewrite includes_app. cbn [includes existsb].
    rewrite str_eqb_refl, orb_true_r.
    rewrite List.filter_app. cbn [List.filter]. rewrite str_eqb_refl.
    cbn [negb]. now rewrite app_nil_r, filter_absent.
  - intros H. unfold toggle at 2.
    rewrite (proj2 (includes_In l g) H).
    unfold toggle. rewrite includes_filter, str_eqb_refl. reflexivity.
  - intros x. rewrite <- !includes_In, !includes_toggle.
    destruct (str_eqb x g); [|reflexivity].
    now rewrite negb_involutive.
Qed.

Lemma toggle_all_genres gs : forall s,
  toggle_all toggleGenre gs s =
    {| createStore :=
         {| Form.mode := Form.mode (createStore s);
            Form.prompt := Form.prompt (createStore s);
            Form.title := Form.title (createStore s);
            Form.lyrics := Form.lyrics (createStore s);
            Form.selectedGenres :=
              fold_left (fun l g => toggle g l) gs
                (Form.selectedGenres (createStore s));
            Form.selectedMoods := Form.selectedMoods (createStore s);
            Form.tempo := Form.tempo (createStore s);
            Form.musicalKey := Form.musicalKey (createStore s) |};
       currentPage := currentPage s |}.
Proof.
  unfold toggle_all.
  induction gs as [|g gs IH]; intros [[m p ti ly sg sm te mk] pg];
    cbn [fold_left]; [reflexivity|].
  rewrite IH. reflexivity.
Qed.

Lemma toggle_all_moods gs : forall s,
  toggle_all toggleMood gs s =
    {| createStore :=
         {| Form.mode := Form.mode (createStore s);
            Form.prompt := Form.prompt (createStore s);
            Form.title := Form.title (createStore s);
            Form.lyrics := Form.lyrics (createStore s);
            Form.selectedGenres := Form.selectedGenres (createStore s);
            Form.selectedMoods :=
              fold_left (fun l g => toggle g l) gs
                (Form.selectedMoods (createStore s));
            Form.tempo := Form.tempo (createStore s);
            Form.musicalKey := Form.musicalKey (createStore s) |};
       currentPage := currentPage s |}.
Proof.
  unfold toggle_all.
  induction gs as [|g gs IH]; intros [[m p ti ly sg sm te mk] pg];
    cbn [fold_left]; [reflexivity|].
  rewrite IH. reflexivity.
Qed.

(** The form [handleExtend] leaves. *)
Lemma handleExtend_form gen s :
  handleExtend gen s =
    {| createStore :=
         {| Form.mode := smart;
            Form.prompt := if truthy (prompt gen) then prompt gen else [];
            Form.title := match present (title gen) with
                          | Some v => v ++ js " (Extended)"
                          | None => []
                          end;
            Form.lyrics := match present (lyrics gen) with
                           | Some v => v
                           | None => []
                           end;
            Form.selectedGenres := selection (genre gen);
            Form.selectedMoods := selection (mood gen);
            Form.tempo := match present_number (tempo gen) with
                          | Some v => v
                          | None => 0%float
                          end;
            Form.musicalKey := match present (musical_key gen) with
                               | Some v => v
                               | None => []
                               end |};
       currentPage := create |}.
Proof.
  unfold handleExtend, selection, when_present.
  destruct (present (genre gen)) as [g|];
    destruct (present (mood gen)) as [m|];
    rewrite ?toggle_all_genres, ?toggle_all_moods;
    destruct (present_number (tempo gen));
    destruct (present (musical_key gen)); reflexivity.
Qed.

(** The form [handleRemix] leaves. *)
Lemma handleRemix_form gen s :
  handleRemix gen s =
    {| createStore :=
         {| Form.mode := custom;
            Form.prompt := if truthy (prompt gen)
                           then js "Remix: " ++ prompt gen else [];
            Form.title := match present (title gen) with
                          | Some v => v ++ js " (Remix)"
                          | None => []
                          end;
            Form.lyrics := [];
            Form.selectedGenres := selection (genre gen);
            Form.selectedMoods := selection (mood gen);
            Form.tempo := match present_number (tempo gen) with
                          | Some v => v
                          | None => 0%float
                          end;
            Form.musicalKey := match present (musical_key gen) with
                               | Some v => v
                               | None => []
                               end |};
       currentPage := create |}.
Proof.
  unfold handleRemix, selection, when_present.
  destruct (present (genre gen)) as [g|];
    destruct (present (mood gen)) as [m|];
    rewrite ?toggle_all_genres, ?toggle_all_moods;
    destruct (present_number (tempo gen));
    destruct (present (musical_key gen)); reflexivity.
Qed.

(** X21: [handleExtend] and [handleRemix] start from a reset form:
    what they leave does not depend on the form before, and the page
    is the create page.  [handleRemix] never carries the lyrics over
    and switches to the custom mode; both select the same genres and
    moods. *)
Theorem handlers_start_afresh (gen : Generation) (s1 s2 : Stores) :
  handleExtend gen s1 = handleExtend gen s2
  /\ handleRemix gen s1 = handleRemix gen s2
  /\ currentPage (handleExtend gen s1) = create
  /\ currentPage (handleRemix gen s1) = create
  /\ Form.mode (createStore (handleExtend gen s1)) = smart
  /\ Form.mode (createStore (handleRemix gen s1)) = custom
  /\ Form.lyrics (createStore (handleRemix gen s1)) = []
  /\ Form.selectedGenres (createStore (handleRemix gen s1))
       = Form.selectedGenres (createStore (handleExtend gen s1))
  /\ Form.selectedMoods (createStore (handleRemix gen s1))
       = Form.selectedMoods (createStore (handleExtend gen s1)).
Proof.
  rewrite !handleExtend_form, !handleRemix_form. repeat split.
Qed.

Lemma fold_toggle_includes gs : forall l g,
  includes (fold_left (fun l g => toggle g l) gs l) g =
    xorb (includes l g) (Nat.odd (occurrences g gs)).
Proof.
  unfold occurrences.
  induction gs as [|x gs IH]; intros l g; cbn [fold_left List.filter].
  - cbn. now rewrite xorb_false_r.
  - rewrite IH, includes_toggle. destruct (str_eqb g x); [|reflexivity].
    cbn [length]. rewrite Nat.odd_succ, <- Nat.negb_odd.
    now destruct (includes l g), (Nat.odd _).
Qed.

Lemma fold_toggle_NoDup gs : forall l,
  List.NoDup l -> List.NoDup (fold_left (fun l g => toggle g l) gs l).
Proof.
  induction gs as [|x gs IH]; intros l H; cbn [fold_left]; [exact H|].
  apply IH. now apply toggle_NoDup.
Qed.

Lemma fold_toggle_distinct gs : forall l,
  List.NoDup (l ++ gs) -> fold_left (fun l g => toggle g l) gs l = l ++ gs.
Proof.
  induction gs as [|x gs IH]; intros l H; cbn [fold_left].
  - now rewrite app_nil_r.
  - assert (includes l x = false) as E.
    { destruct (includes l x) eqn:E; [|reflexivity].
      apply includes_In in E. apply NoDup_remove_2 in H.
      exfalso. apply H. apply in_or_app. now left. }
    unfold toggle at 2. rewrite E.
    rewrite IH; rewrite <- app_assoc; [reflexivity|exact H].
Qed.

(** X22: the genres [handleExtend] selects from the genre field of a
    generation (the names between its commas, trimmed) are those that
    stand an odd number of times in the field: a name that stands
    twice is toggled on and off again.  No genre is selected twice;
    when the names are all different they are selected in their
    order; when the field is absent or empty none is. *)
Theorem handleExtend_genres (gen : Generation) (s : Stores) :
  let selected := Form.selectedGenres (createStore (handleExtend gen s)) in
  List.NoDup selected
  /\ (present (genre gen) = None -> selected = [])
  /\ (forall v, present (genre gen) = Some v ->
        (forall g, In g selected
                   <-> Nat.odd (occurrences g (names v)) = true)
        /\ (List.NoDup (names v) -> selected = names v)).
Proof.
  cbn zeta. rewrite handleExtend_form. cbn [createStore Form.selectedGenres].
  unfold selection. split; [|split].
  - destruct (present (genre gen)); [|constructor].
    apply fold_toggle_NoDup. constructor.
  - now intros ->.
  - intros v ->. split.
    + intros g. rewrite <- includes_In, fold_toggle_includes.
      cbn [includes existsb xorb]. reflexivity.
    + intros H. now rewrite fold_toggle_distinct.
Qed.

Lemma trim_after_space g : trim (ch " " :: g) = trim g.
Proof. reflexivity. Qed.

Lemma names_after_space L :
  L <> [] -> Forall plain_name L ->
  names (ch " " :: joinWith (js ", ") L) = L.
Proof.
  unfold names.
  induction L as [|y L IH]; intros Hne HL; [contradiction|].
  apply List.Forall_cons_iff in HL as [(_ & Ht & Hc) HL].
  assert (~ In (ch ",") (ch " " :: y)) as Hc'.
  { intros [F|F]; [discriminate F|contradiction]. }
  destruct L as [|y' L].
  - cbn [joinWith]. rewrite (split_plain _ (ch " " :: y)) by exact Hc'.
    cbn [List.map]. now rewrite trim_after_space, Ht.
  - change (joinWith (js ", ") (y :: y' :: L))
      with (y ++ js ", " ++ joinWith (js ", ") (y' :: L)).
    change (ch " " :: y ++ js ", " ++ joinWith (js ", ") (y' :: L))
      with ((ch " " :: y) ++ ch "," :: ch " " :: joinWith (js ", ") (y' :: L)).
    rewrite split_sep_app by exact Hc'. cbn [List.map].
    rewrite trim_after_space, Ht, IH; [reflexivity|discriminate|exact HL].
Qed.

Lemma names_joinWith L :
  L <> [] -> Forall plain_name L -> names (joinWith (js ", ") L) = L.
Proof.
  intros Hne HL. destruct L as [|x L]; [contradiction|].
  apply List.Forall_cons_iff in HL as [(_ & Ht & Hc) HL].
  destruct L as [|y L].
  - cbn [joinWith]. unfold names. rewrite split_plain by exact Hc.
    cbn [List.map]. now rewrite Ht.
  - change (joinWith (js ", ") (x :: y :: L))
      with (x ++ ch "," :: ch " " :: joinWith (js ", ") (y :: L)).
    unfold names. rewrite split_sep_app by exact Hc. cbn [List.map].
    rewrite Ht. f_equal. apply (names_after_space (y :: L)); [discriminate|exact HL].
Qed.

Lemma joinWith_truthy L :
  L <> [] -> Forall plain_name L -> truthy (joinWith (js ", ") L) = true.
Proof.
  intros Hne HL. destruct L as [|x L]; [contradiction|].
  apply List.Forall_cons_iff in HL as [(Hx & _) _].
  destruct x as [|c x]; [contradiction|]. now destruct L.
Qed.

Lemma selection_sentField L :
  List.NoDup L -> Forall plain_name L -> selection (sentField L) = L.
Proof.
  intros Hd HL. destruct L as [|x L]; [reflexivity|].
  unfold selection, sentField, present.
  rewrite joinWith_truthy by (discriminate || exact HL).
  rewrite joinWith_truthy by (discriminate || exact HL).
  rewrite names_joinWith by (discriminate || exact HL).
  now rewrite fold_toggle_distinct.
Qed.

(** X23: extending (or remixing) a generation selects again the
    genres and moods it was made with.  The create page sends the
    selected names joined with a comma and a space (nothing when none
    is selected); when the names are different, not empty, trimmed
    and without a comma, the handlers select exactly them, in the
    same order. *)
Theorem selection_round_trip (genres moods : list jsstring)
    (gen : Generation) (s : Stores) :
  List.NoDup genres -> Forall plain_name genres ->
  List.NoDup moods -> Forall plain_name moods ->
  genre gen = sentField genres -> mood gen = sentField moods ->
  Form.selectedGenres (createStore (handleExtend gen s)) = genres
  /\ Form.selectedMoods (createStore (handleExtend gen s)) = moods
  /\ Form.selectedGenres (createStore (handleRemix gen s)) = genres
  /\ Form.selectedMoods (createStore (handleRemix gen s)) = moods.
Proof.
  intros Hg Pg Hm Pm Eg Em.
  rewrite handleExtend_form, handleRemix_form.
  cbn [createStore Form.selectedGenres Form.selectedMoods].
  rewrite Eg, Em, !selection_sentField by assumption.
  repeat split.
Qed.

Lemma selection_round_trip_witness :
  let genres := [js "rock"; js "lo-fi hip hop"] in
  let moods := [js "calm"] in
  let gen := {| prompt := js "a song"; title := None; lyrics := None;
                genre := Some (js "rock, lo-fi hip hop");
                mood := Some (js "calm");
                tempo := None; musical_key := None |} in
  let s := {| createStore := initialState; currentPage := library |} in
  Form.selectedGenres (createStore (handleExtend gen s)) = genres
  /\ Form.selectedMoods (createStore (handleExtend gen s)) = moods
  /\ Form.selectedGenres (createStore (handleRemix gen s)) = genres
  /\ Form.selectedMoods (createStore (handleRemix gen s)) = moods.
Proof.
  cbn zeta. apply selection_round_trip.
  - repeat constructor; cbn; intuition discriminate.
  - repeat constructor; cbn; intuition discriminate.
  - repeat constructor; cbn; intuition discriminate.
  - repeat constructor; cbn; intuition discriminate.
  - reflexivity.
  - reflexivity.
Defined.

End TrackActionsProofs.


(* ===================================================================== *)
(** ** The lyrics panels *)
(* ===================================================================== *)

Module LyricsPanelProofs.
Import JS Lyrics LyricsNotions LyricsPanel.
Import ParseLyricsMore ActiveLineMore.

Lemma useLRC_lines p : useLRC p = true <-> lrcLines p <> [].
Proof.
  unfold useLRC. destruct (lrcLines p); cbn [length]; split;
    try discriminate; try reflexivity; intros H; now try contradiction.
Qed.

(** X24: what the panel shows.  It shows the notice exactly when both
    texts are missing or empty; it never has both timed lines and
    sections; with a non-empty plain text it always shows something,
    the timed lines or at least one section; but with no plain text
    and a timed text in which no line carries a time stamp it shows
    neither the notice nor any line. *)
Theorem panel_view (p : Props) :
  (view p = Notice <-> falsy (lyrics p) = true /\ falsy (lrcLyrics p) = true)
  /\ (lrcLines p = [] \/ sections p = [])
  /\ (falsy (lyrics p) = false ->
        (exists ls, view p = TimedLines ls /\ ls <> [])
        \/ (exists ss, view p = Sections ss /\ ss <> []))
  /\ (falsy (lyrics p) = true -> falsy (lrcLyrics p) = false ->
        lrcLines p = [] -> view p = Sections []).
Proof.
  split; [|split; [|split]].
  - unfold view.
    destruct (falsy (lyrics p)), (falsy (lrcLyrics p)); cbn [andb];
      (split; [intros H|intros [H1 H2]]); try discriminate;
      try (split; reflexivity); try reflexivity;
      destruct (useLRC p); discriminate H.
  - unfold sections. destruct (useLRC p) eqn:E.
    + right. now destruct (lyrics p).
    + left. destruct (lrcLines p) eqn:El; [reflexivity|].
      unfold useLRC in E. rewrite El in E. discriminate.
  - intros H. unfold view. rewrite H. cbn [andb].
    destruct (useLRC p) eqn:E.
    + left. eexists. split; [reflexivity|]. now apply useLRC_lines.
    + right. eexists. split; [reflexivity|].
      unfold sections, falsy in *. rewrite E.
      destruct (lyrics p) as [s|]; [|discriminate].
      destruct (truthy s); [|discriminate]. cbn [negb orb].
      apply parseLyrics_nonempty.
  - intros H1 H2 H3. unfold view. rewrite H1, H2. cbn [andb].
    unfold useLRC, sections. rewrite H3. cbn [length Nat.ltb Nat.leb orb].
    unfold falsy in H1. destruct (lyrics p) as [s|]; [|reflexivity].
    apply negb_true_iff in H1. rewrite H1.
    now rewrite orb_true_r.
Qed.

Lemma panel_view_witness :
  let p := {| lyrics := None; lrcLyrics := Some (js "la la la");
              currentTime := 0%float; duration := 10%float;
              isCurrentTrack := true |} in
  view p = Sections [].
Proof.
  cbn zeta. apply panel_view; reflexivity.
Defined.

(** X25: the line the panel marks.  The index is [-1] or the index of
    one of the timed lines shown; no line is marked when the track
    shown is not the one that plays; and a marked line has started,
    as have all the lines before it. *)
Theorem panel_active_line (p : Props) :
  (-1 <= activeLRCIndex p < Z.of_nat (length (lrcLines p)))%Z
  /\ (isCurrentTrack p = false -> activeLRCIndex p = (-1)%Z)
  /\ (forall i l, (i <= Z.to_nat (activeLRCIndex p))%nat ->
        (0 <= activeLRCIndex p)%Z ->
        nth_error (lrcLines p) i = Some l ->
        (time l <=? currentTime p)%float = true).
Proof.
  unfold activeLRCIndex. split; [|split].
  - destruct (negb (useLRC p) || negb (isCurrentTrack p)) eqn:E.
    + split; [lia|]. lia.
    + rewrite findActive_passing.
      pose proof (passing_le (currentTime p) (lrcLines p)). lia.
  - intros ->. now rewrite orb_true_r.
  - intros i l Hi H0 Hl.
    destruct (negb (useLRC p) || negb (isCurrentTrack p)); [lia|].
    rewrite findActive_passing in Hi, H0.
    pose proof (passing_firstn (currentTime p) (lrcLines p)) as HF.
    rewrite List.Forall_forall in HF. apply HF.
    apply nth_error_In with (n := i).
    rewrite nth_error_firstn.
    destruct (Nat.ltb_spec i (passing (currentTime p) (lrcLines p)));
      [exact Hl|lia].
Qed.

End LyricsPanelProofs.
